(** * TesseraCT: configuration validation and the CT storage layer

    A shallow embedding of [config.go], [storage/storage.go],
    [storage/aws/issuers.go] and
    [internal/testonly/storage/inmemory/issuers.go].

    Go values are embedded as follows:
    - [string] and [[]byte] are Rocq strings (sequences of 8-bit characters);
    - [uint64], [uint], [int64] are [Z], with conversions that wrap written
      out where the source converts or increments;
    - [error] is the inductive type [error] below; a function returning
      [(T, error)] returns a [Result T];
    - Go maps are stdpp [gmap]s / [gset]s;
    - mutable fields are threaded explicitly through a state record. *)

From Stdlib Require Import ZArith Ascii Bool Lia.
From stdpp Require Import base tactics option list strings pretty gmap.

Local Open Scope Z_scope.

(** ** Go errors *)

(** [errors.New] and [fmt.Errorf] values.  A format with the [%w] verb keeps
    the wrapped error reachable for [errors.Is]; a format with [%v] only
    keeps its text. *)
Inductive error : Type :=
| errors_New (msg : string)
| Errorf_w (prefix : string) (wrapped : error).

(** The [Error()] method. *)
Fixpoint Error (e : error) : string :=
  match e with
  | errors_New msg => msg
  | Errorf_w prefix wrapped => prefix +:+ Error wrapped
  end.

#[global] Instance error_eq_dec : EqDecision error.
Proof. solve_decision. Defined.

(** [errors.Is]: sentinel errors are compared structurally here, where Go
    compares them by identity. *)
Fixpoint errors_Is (e target : error) : bool :=
  bool_decide (e = target) ||
  match e with
  | errors_New _ => false
  | Errorf_w _ wrapped => errors_Is wrapped target
  end.

Inductive Result (A : Type) : Type :=
| Ok (a : A)
| Err (e : error).
Arguments Ok {A} a.
Arguments Err {A} e.

Definition is_Err {A} (r : Result A) : bool :=
  match r with Ok _ => false | Err _ => true end.

(** ** Package [strings] *)

(** [strings.HasPrefix]. *)
Fixpoint HasPrefix (s prefix : string) {struct prefix} : bool :=
  match prefix, s with
  | EmptyString, _ => true
  | String p prefix', String c s' => bool_decide (c = p) && HasPrefix s' prefix'
  | String _ _, EmptyString => false
  end.

(** [strings.Contains]. *)
Fixpoint Contains (s substr : string) : bool :=
  HasPrefix s substr ||
  match s with
  | EmptyString => false
  | String _ s' => Contains s' substr
  end.

(** [strings.Split(s, sep)] for a one-byte separator: every occurrence of
    [sep] separates two fields, so the result is never empty. *)
Fixpoint Split (s : string) (sep : ascii) : list string :=
  match s with
  | EmptyString => [EmptyString]
  | String c s' =>
      if bool_decide (c = sep) then EmptyString :: Split s' sep
      else match Split s' sep with
           | [] => [String c EmptyString]
           | w :: ws => String c w :: ws
           end
  end.

(** [strings.Cut] for a one-byte separator. *)
Fixpoint Cut (s : string) (sep : ascii) : option (string * string) :=
  match s with
  | EmptyString => None
  | String c s' =>
      if bool_decide (c = sep) then Some (EmptyString, s')
      else match Cut s' sep with
           | None => None
           | Some (before, after) => Some (String c before, after)
           end
  end.

(** [bytes.SplitN(s, sep, n)] for a one-byte separator and [n >= 0]: at most
    [n] fields, the last one being the unsplit remainder. *)
Fixpoint SplitN (s : string) (sep : ascii) (n : nat) : list string :=
  match n with
  | O => []
  | S O => [s]
  | S n' =>
      match Cut s sep with
      | None => [s]
      | Some (before, after) => before :: SplitN after sep n'
      end
  end.

Definition comma : ascii := "," % char.
Definition dot : ascii := "." % char.
Definition newline : ascii := ascii_of_nat 10.

(** ** [config.go] *)

Module Config.

(** [x509.ExtKeyUsage]. *)
Inductive ExtKeyUsage : Type :=
| ExtKeyUsageAny
| ExtKeyUsageServerAuth
| ExtKeyUsageClientAuth
| ExtKeyUsageCodeSigning
| ExtKeyUsageEmailProtection
| ExtKeyUsageIPSECEndSystem
| ExtKeyUsageIPSECTunnel
| ExtKeyUsageIPSECUser
| ExtKeyUsageTimeStamping
| ExtKeyUsageOCSPSigning
| ExtKeyUsageMicrosoftServerGatedCrypto
| ExtKeyUsageNetscapeServerGatedCrypto.

#[global] Instance ExtKeyUsage_eq_dec : EqDecision ExtKeyUsage.
Proof. solve_decision. Defined.

(** The table [stringToKeyUsage], in source order. *)
Definition stringToKeyUsage_entries : list (string * ExtKeyUsage) :=
  [ ("Any", ExtKeyUsageAny);
    ("ServerAuth", ExtKeyUsageServerAuth);
    ("ClientAuth", ExtKeyUsageClientAuth);
    ("CodeSigning", ExtKeyUsageCodeSigning);
    ("EmailProtection", ExtKeyUsageEmailProtection);
    ("IPSECEndSystem", ExtKeyUsageIPSECEndSystem);
    ("IPSECTunnel", ExtKeyUsageIPSECTunnel);
    ("IPSECUser", ExtKeyUsageIPSECUser);
    ("TimeStamping", ExtKeyUsageTimeStamping);
    ("OCSPSigning", ExtKeyUsageOCSPSigning);
    ("MicrosoftServerGatedCrypto", ExtKeyUsageMicrosoftServerGatedCrypto);
    ("NetscapeServerGatedCrypto", ExtKeyUsageNetscapeServerGatedCrypto) ].

Definition stringToKeyUsage : gmap string ExtKeyUsage :=
  list_to_map stringToKeyUsage_entries.

(** Elliptic curves of [crypto/elliptic]. *)
Inductive Curve : Type := P224 | P256 | P384 | P521.

(** The dynamic type of a [crypto.PublicKey]. *)
Inductive PublicKey : Type :=
| ecdsa_PublicKey (curve : Curve) (X Y : Z)
| rsa_PublicKey (N E : Z)
| ed25519_PublicKey (key : string)
| other_PublicKey (desc : string).

(** [crypto.Signer]; a nil interface value is [None]. *)
Record Signer : Type := { Public : PublicKey }.

(** [time.Time] as an instant, in nanoseconds since the epoch. *)
Definition Time : Type := Z.
Definition Before (t u : Time) : bool := t <? u.

Record CertValidationConfig : Type := {
  RootsPemFile : string;
  RejectExpired : bool;
  RejectUnexpired : bool;
  ExtKeyUsages : string;
  RejectExtensions : string;
  NotAfterStart : option Time;
  NotAfterLimit : option Time;
}.

Section WithEnvironment.

(** [x509util.PEMCertPool] and the file system seen through
    [AppendCertsFromPEMFile]. *)
Variable PEMCertPool : Type.
Variable AppendCertsFromPEMFile : string -> Result PEMCertPool.
(** [strconv.Atoi]. *)
Variable Atoi : string -> Result Z.
(** The [%v] rendering of a public key. *)
Variable Sprint_key : PublicKey -> string.

Record CertValidationOpts : Type := {
  trustedRoots : PEMCertPool;
  rejectExpired : bool;
  rejectUnexpired : bool;
  notAfterStart : option Time;
  notAfterLimit : option Time;
  extKeyUsages : list ExtKeyUsage;
  rejectExtIds : list (list Z);
}.

Record ValidatedLogConfig : Type := {
  Origin : string;
  Signer_ : Signer;
  CertValidationOpts_ : CertValidationOpts;
}.

(** The inner loop of [parseOIDs] over the dot-separated components. *)
Fixpoint parseOID (bits : list string) (oid : list Z) : Result (list Z) :=
  match bits with
  | [] => Ok oid
  | n :: bits' =>
      match Atoi n with
      | Err err => Err err
      | Ok p => parseOID bits' (oid ++ [p])
      end
  end.

Fixpoint parseOIDs_loop (oids : list string) (ret : list (list Z))
  : Result (list (list Z)) :=
  match oids with
  | [] => Ok ret
  | s :: oids' =>
      match parseOID (Split s dot) [] with
      | Err err => Err err
      | Ok oid => parseOIDs_loop oids' (ret ++ [oid])
      end
  end.

Definition parseOIDs (oids : list string) : Result (list (list Z)) :=
  parseOIDs_loop oids [].

(** The loop validating the extended key usages list.  [acc] is
    [validationOpts.extKeyUsages]; the [break] on [Any] leaves the loop with
    the field reset to nil. *)
Fixpoint extKeyUsages_loop (l : list string) (acc : list ExtKeyUsage)
  : Result (list ExtKeyUsage) :=
  match l with
  | [] => Ok acc
  | kuStr :: l' =>
      match stringToKeyUsage !! kuStr with
      | Some ku =>
          if bool_decide (ku = ExtKeyUsageAny) then Ok []
          else extKeyUsages_loop l' (acc ++ [ku])
      | None => Err (errors_New ("unknown extended key usage: " +:+ kuStr))
      end
  end.

(** The list [lExtKeyUsages] of [newCertValidationOpts]. *)
Definition lExtKeyUsages (cfg : CertValidationConfig) : list string :=
  if bool_decide (ExtKeyUsages cfg = EmptyString) then []
  else Split (ExtKeyUsages cfg) comma.

Definition newCertValidationOpts (cfg : CertValidationConfig)
  : Result CertValidationOpts :=
  if bool_decide (String.length (RootsPemFile cfg) = 0%nat) then
    Err (errors_New "empty rootsPemFile")
  else
    match AppendCertsFromPEMFile (RootsPemFile cfg) with
    | Err err => Err (errors_New ("failed to read trusted roots: " +:+ Error err))
    | Ok roots =>
        if RejectExpired cfg && RejectUnexpired cfg then
          Err (errors_New "rejecting all certificates")
        else if match NotAfterStart cfg, NotAfterLimit cfg with
                | Some start, Some limit => Before limit start
                | _, _ => false
                end then
          Err (errors_New "limit before start")
        else
          match extKeyUsages_loop (lExtKeyUsages cfg) [] with
          | Err err => Err err
          | Ok ekus =>
              let validationOpts rej :=
                {| trustedRoots := roots;
                   rejectExpired := RejectExpired cfg;
                   rejectUnexpired := RejectUnexpired cfg;
                   notAfterStart := NotAfterStart cfg;
                   notAfterLimit := NotAfterLimit cfg;
                   extKeyUsages := ekus;
                   rejectExtIds := rej |} in
              if bool_decide (RejectExtensions cfg = EmptyString) then
                Ok (validationOpts [])
              else
                match parseOIDs (Split (RejectExtensions cfg) comma) with
                | Err err =>
                    Err (errors_New ("failed to parse RejectExtensions: " +:+ Error err))
                | Ok ids => Ok (validationOpts ids)
                end
          end
    end.

Definition New (origin : string) (signer : option Signer)
    (cfg : CertValidationConfig) : Result ValidatedLogConfig :=
  if bool_decide (origin = EmptyString) then Err (errors_New "empty origin")
  else
    match signer with
    | None => Err (errors_New "empty signer")
    | Some sg =>
        match Public sg with
        | ecdsa_PublicKey _ _ _ =>
            match newCertValidationOpts cfg with
            | Err err =>
                Err (errors_New ("invalid cert validation config: " +:+ Error err))
            | Ok vlc =>
                Ok {| Origin := origin; Signer_ := sg; CertValidationOpts_ := vlc |}
            end
        | keyType =>
            Err (errors_New ("unsupported key type: " +:+ Sprint_key keyType))
        end
    end.

End WithEnvironment.

Arguments trustedRoots {PEMCertPool} _.
Arguments rejectExpired {PEMCertPool} _.
Arguments rejectUnexpired {PEMCertPool} _.
Arguments notAfterStart {PEMCertPool} _.
Arguments notAfterLimit {PEMCertPool} _.
Arguments extKeyUsages {PEMCertPool} _.
Arguments rejectExtIds {PEMCertPool} _.
Arguments Origin {PEMCertPool} _.
Arguments Signer_ {PEMCertPool} _.
Arguments CertValidationOpts_ {PEMCertPool} _.

(** The two contradictory policies. *)
Definition rejects_everything (cfg : CertValidationConfig) : Prop :=
  RejectExpired cfg = true /\ RejectUnexpired cfg = true.

Definition limit_before_start (cfg : CertValidationConfig) : Prop :=
  exists start limit,
    NotAfterStart cfg = Some start /\ NotAfterLimit cfg = Some limit /\
    Before limit start = true.

(** Whether a public key has the dynamic type [*ecdsa.PublicKey]. *)
Definition is_ecdsa (k : PublicKey) : bool :=
  match k with
  | ecdsa_PublicKey _ _ _ => true
  | _ => false
  end.

(** A key usage name of the table. *)
Definition known (kuStr : string) : Prop := is_Some (stringToKeyUsage !! kuStr).

End Config.

(** ** [storage/storage.go] and the issuer stores *)

Module Storage.

(** Conversion to [int64], wrapping modulo [2^64]. *)
Definition to_int64 (z : Z) : Z := (z + 2 ^ 63) mod 2 ^ 64 - 2 ^ 63.

Definition maxCachedIssuerKeys : Z := Z.shiftl 1 20.

(** [layout.EntryBundleWidth]: entry bundles hold 256 leaves. *)
Definition EntryBundleWidth : Z := 256.

Record KV : Type := { K : string; V : string }.

#[global] Instance KV_eq_dec : EqDecision KV.
Proof. solve_decision. Defined.

(** A function returning only [error] either returns (nil or an error) or
    panics. *)
Inductive Outcome : Type :=
| Returned (err : option error)
| Panicked.

(** The interface [IssuerStorage], over the state [S] of the store. *)
Class IssuerStorage (S : Type) : Type :=
  AddIssuersIfNotExist : S -> list KV -> S * Outcome.

(** [tessera.Index]. *)
Record tessera_Index : Type := { Index : Z; IsDup : bool }.

(** [tessera.IndexFuture]: the memoised outcome of the future. *)
Definition IndexFuture : Type := Result tessera_Index.

(** [ctonly.Entry]. *)
Record Entry : Type := {
  Timestamp : Z;
  IsPrecert : bool;
  Certificate : string;
  Precertificate : string;
  IssuerKeyHash : string;
  FingerprintsChain : list string;
}.

(** [x509.Certificate], of which only the DER bytes are used. *)
Record Certificate_x509 : Type := { Raw : string }.

(** The immutable fields of [CTStorage]. *)
Record CTStorage : Type := {
  enableAwaiter : bool;
  maxDedupeFutureInFlight : Z;
}.

(** Calls made to the collaborators of [CTStorage], in the order made. *)
Inductive Call : Type :=
| CallStoreData (entry : Entry)
| CallAwait (f : IndexFuture)
| CallReadEntryBundle (index : Z) (p : Z)
| CallTimestamp (N : Z).

(** The mutable part: the atomic counter, and the calls made so far. *)
Record CTState : Type := {
  dedupeFutureInFlight : Z;
  calls : list Call;
}.

(** A state and error monad for the methods of [CTStorage]. *)
Definition M (A : Type) : Type := CTState -> Result A * CTState.

Definition ret {A} (a : A) : M A := fun st => (Ok a, st).
Definition fail {A} (e : error) : M A := fun st => (Err e, st).
Definition bind {A B} (m : M A) (k : A -> M B) : M B :=
  fun st =>
    match m st with
    | (Ok a, st') => k a st'
    | (Err e, st') => (Err e, st')
    end.

Declare Scope go_scope.
Delimit Scope go_scope with go.
Notation "x <- m ;; k" := (bind m (fun x => k))
  (at level 100, m at next level, right associativity) : go_scope.
Notation "m ;; k" := (bind m (fun _ => k))
  (at level 100, right associativity) : go_scope.

Definition call (c : Call) : M unit :=
  fun st => (Ok tt, {| dedupeFutureInFlight := dedupeFutureInFlight st;
                       calls := calls st ++ [c] |}).

(** [atomic.Int64.Load], [Add] and [Store]. *)
Definition Load : M Z := fun st => (Ok (dedupeFutureInFlight st), st).
Definition AtomicAdd (delta : Z) : M unit :=
  fun st => (Ok tt, {| dedupeFutureInFlight := to_int64 (dedupeFutureInFlight st + delta);
                       calls := calls st |}).
Definition Store (v : Z) : M unit :=
  fun st => (Ok tt, {| dedupeFutureInFlight := v; calls := calls st |}).

(** [err != nil] handling of a collaborator's result. *)
Definition try {A} (r : Result A) (wrap : error -> error) : M A :=
  match r with
  | Ok a => ret a
  | Err e => fail (wrap e)
  end.

(** [if err != nil { return ..., fmt.Errorf(..., err) }] after a call. *)
Definition wrapping {A} (m : M A) (wrap : error -> error) : M A :=
  fun st =>
    match m st with
    | (Ok a, st') => (Ok a, st')
    | (Err e, st') => (Err (wrap e), st')
    end.

(** [tessera.ErrPushback] and [os.ErrNotExist]. *)
Definition ErrPushback : error := errors_New "pushback".
Definition ErrNotExist : error := errors_New "file does not exist".

(** One tick of [resetDedupeFutureInFlightJob]. *)
Definition resetDedupeFutureInFlightJob_tick : M unit := Store 0.

Section WithLog.

Local Open Scope go_scope.

(** The appender: [storeData] sequences an entry and returns its future. *)
Variable storeData : Entry -> IndexFuture.
(** What the publication awaiter ends up with for an index: the first
    checkpoint covering it, or an error (cancellation, read failure). *)
Variable publishedCheckpoint : Z -> Result string.
(** [tessera.LogReader.ReadEntryBundle]. *)
Variable ReadEntryBundle : Z -> Z -> Result string.
(** [layout.PartialTileSize]. *)
Variable PartialTileSize : Z -> Z -> Z -> Z.
(** [strconv.ParseUint(s, 10, 64)]. *)
Variable ParseUint : string -> Result Z.
(** [staticct.ExtractTimestampFromBundle]. *)
Variable ExtractTimestampFromBundle : string -> Z -> Result Z.

(** Modelled from the spec: [tessera.PublicationAwaiter.Await], which is not
    part of the sources.  It resolves the future, waits until a published
    checkpoint covers the future's index, and returns the future's result
    together with that checkpoint. *)
Definition Await (f : IndexFuture) : M (tessera_Index * string) :=
  call (CallAwait f) ;;
  i <- try f (fun e => e) ;;
  cp <- try (publishedCheckpoint (Index i)) (fun e => e) ;;
  ret (i, cp).

Definition timestamp (ebRaw : string) (N : Z) : M Z :=
  call (CallTimestamp N) ;;
  try (ExtractTimestampFromBundle ebRaw N) (fun e => e).

Definition dedupeFuture (cts : CTStorage) (f : IndexFuture) : M (Z * Z) :=
  inFlight <- Load ;;
  if inFlight >? to_int64 (maxDedupeFutureInFlight cts) then
    fail (Errorf_w "too many duplicate submissions " ErrPushback)
  else
    AtomicAdd 1 ;;
    r <- wrapping (Await f)
      (Errorf_w "error waiting for Tessera index future and its integration: ") ;;
    let idx := r.1 in
    let cpRaw := r.2 in
    let l := SplitN cpRaw newline 3 in
    if bool_decide (length l < 2)%nat then
      fail (errors_New "invalid checkpoint - no size")
    else
      ckptSize <- try (ParseUint (nth 1 l EmptyString))
        (fun err => errors_New ("invalid checkpoint - can't extract size: " +:+ Error err)) ;;
      let eBIdx := Index idx / EntryBundleWidth in
      let p := PartialTileSize 0 eBIdx ckptSize in
      call (CallReadEntryBundle eBIdx p) ;;
      eBRaw <- try (ReadEntryBundle eBIdx p)
        (fun err =>
           if errors_Is err ErrNotExist then
             errors_New ("leaf bundle at index " +:+ pretty eBIdx
                         +:+ " not found: " +:+ Error err)
           else
             errors_New ("failed to fetch entry bundle at index " +:+ pretty eBIdx
                         +:+ ": " +:+ Error err)) ;;
      let eIdx := Index idx mod EntryBundleWidth in
      t <- wrapping (timestamp eBRaw eIdx)
        (fun err =>
           errors_New ("failed to extract timestamp of entry " +:+ pretty eIdx
                       +:+ " in bundle index " +:+ pretty eBIdx +:+ ": " +:+ Error err)) ;;
      ret (Index idx, t).

Definition Add (cts : CTStorage) (entry : Entry) : M (Z * Z) :=
  call (CallStoreData entry) ;;
  let future := storeData entry in
  idx <- try future (Errorf_w "error waiting for Tessera index future: ") ;;
  if IsDup idx then dedupeFuture cts future
  else
    idx' <- (if enableAwaiter cts then
               r <- wrapping (Await future)
                 (Errorf_w "error waiting for Tessera index future and its integration: ") ;;
               ret r.1
             else ret idx) ;;
    ret (Index idx', Timestamp entry).

End WithLog.

(** *** [internal/testonly/storage/inmemory/issuers.go] *)

Module inmemory.

(** [IssuersStorage] is a [map[string][]byte]. *)
Fixpoint AddIssuersIfNotExist (s : gmap string string) (kv : list KV)
  : gmap string string * Outcome :=
  match kv with
  | [] => (s, Returned None)
  | x :: kv' =>
      let objName := K x in
      match s !! objName with
      | Some _ => AddIssuersIfNotExist s kv'
      | None => AddIssuersIfNotExist (<[objName := V x]> s) kv'
      end
  end.

#[global] Instance IssuersStorage_IssuerStorage : IssuerStorage (gmap string string) :=
  AddIssuersIfNotExist.

End inmemory.

(** *** [storage/aws/issuers.go] *)

Module aws.

(** What [s3Client.PutObject] can fail with: an API error carrying an
    error code, or an error that is not a [smithy.APIError]. *)
Inductive S3Error : Type :=
| APIError (code : string) (message : string)
| TransportError (message : string).

Definition S3Error_Error (e : S3Error) : string :=
  match e with
  | APIError code message => "api error " +:+ code +:+ ": " +:+ message
  | TransportError message => message
  end.

(** [IssuersStorage]; the client stands for the objects of the bucket it
    talks to, by object name. *)
Record IssuersStorage : Type := {
  s3Client : gmap string string;
  bucket : string;
  prefix : string;
  contentType : string;
}.

Definition with_objects (s : IssuersStorage) (objs : gmap string string) : IssuersStorage :=
  {| s3Client := objs; bucket := bucket s; prefix := prefix s;
     contentType := contentType s |}.

Section WithS3.

(** [path.Join] and the [%q] verb. *)
Variable path_Join : string -> string -> string.
Variable Quote : string -> string.
(** Failures of the service for a put that passes its precondition. *)
Variable s3_fault : string -> option S3Error.

(** Modelled from the spec: the object store's put-if-none-match.  With
    [IfNoneMatch: "*"] a put on an existing object name fails with the
    API error code [PreconditionFailed] and leaves the object as it is. *)
Definition PutObject (objs : gmap string string) (Key Body : string)
  : gmap string string * option S3Error :=
  match objs !! Key with
  | Some _ => (objs, Some (APIError "PreconditionFailed" "At least one of the pre-conditions you specified did not hold"))
  | None =>
      match s3_fault Key with
      | Some e => (objs, Some e)
      | None => (<[Key := Body]> objs, None)
      end
  end.

Definition keyToObjName (s : IssuersStorage) (key : string) : string :=
  path_Join (prefix s) key.

(** The loop of [AddIssuersIfNotExist].  [errors.As] leaves [apiErr] nil
    for an error that is no API error, and the call of [ErrorCode] on it
    panics. *)
Fixpoint AddIssuersIfNotExist_loop (s : IssuersStorage)
    (objs : gmap string string) (kv : list KV)
  : gmap string string * Outcome :=
  match kv with
  | [] => (objs, Returned None)
  | x :: kv' =>
      let objName := keyToObjName s (K x) in
      match PutObject objs objName (V x) with
      | (objs', Some err) =>
          match err with
          | APIError code _ =>
              if bool_decide (code = "PreconditionFailed") then
                (objs', Returned None)
              else
                (objs', Returned (Some (Errorf_w
                   ("failed to write object " +:+ Quote objName +:+ " to bucket "
                    +:+ Quote (bucket s) +:+ ": ")
                   (errors_New (S3Error_Error err)))))
          | TransportError _ => (objs', Panicked)
          end
      | (objs', None) => AddIssuersIfNotExist_loop s objs' kv'
      end
  end.

Definition AddIssuersIfNotExist (s : IssuersStorage) (kv : list KV)
  : IssuersStorage * Outcome :=
  let '(objs, out) := AddIssuersIfNotExist_loop s (s3Client s) kv in
  (with_objects s objs, out).

#[local] Instance IssuersStorage_IssuerStorage : IssuerStorage IssuersStorage :=
  AddIssuersIfNotExist.

End WithS3.

End aws.

(** *** The caching wrapper and [AddIssuerChain] *)

(** [cachedStoreIssuers] closes over the key cache [m] and the store [s]. *)
Record IssuerCache (S : Type) : Type := {
  cache_m : gset string;
  store_s : S;
}.
Arguments cache_m {S} _.
Arguments store_s {S} _.

Section WithIssuerStorage.

Context {S : Type} {store : IssuerStorage S}.

(** First loop: the records whose key is not in the cache, appended to
    [req] in order. *)
Fixpoint cachedStoreIssuers_req (m : gset string) (kv req : list KV) : list KV :=
  match kv with
  | [] => req
  | x :: kv' =>
      if bool_decide (K x ∈ m) then cachedStoreIssuers_req m kv' req
      else cachedStoreIssuers_req m kv' (req ++ [x])
  end.

(** Second loop: cache the keys of [req] until the cache is full. *)
Fixpoint cachedStoreIssuers_fill (m : gset string) (req : list KV) : gset string :=
  match req with
  | [] => m
  | x :: req' =>
      if Z.of_nat (size m) >=? maxCachedIssuerKeys then m
      else cachedStoreIssuers_fill ({[ K x ]} ∪ m) req'
  end.

Definition cachedStoreIssuers (c : IssuerCache S) (kv : list KV)
  : IssuerCache S * Outcome :=
  let req := cachedStoreIssuers_req (cache_m c) kv [] in
  match AddIssuersIfNotExist (store_s c) req with
  | (s', Returned (Some err)) =>
      ({| cache_m := cache_m c; store_s := s' |},
       Returned (Some (errors_New
         ("AddIssuersIfNotExist()s: error storing issuer data in the underlying IssuerStorage: "
          +:+ Error err))))
  | (s', Panicked) => ({| cache_m := cache_m c; store_s := s' |}, Panicked)
  | (s', Returned None) =>
      ({| cache_m := cachedStoreIssuers_fill (cache_m c) req; store_s := s' |},
       Returned None)
  end.

End WithIssuerStorage.

(** [encoding/hex]. *)
Definition hextable : string := "0123456789abcdef".

Definition hexdigit (n : Z) : ascii :=
  match String.get (Z.to_nat n) hextable with
  | Some c => c
  | None => "0" % char
  end.

Fixpoint EncodeToString (src : string) : string :=
  match src with
  | EmptyString => EmptyString
  | String v src' =>
      let b := Z.of_N (N_of_ascii v) in
      String (hexdigit (Z.shiftr b 4))
        (String (hexdigit (Z.land b 15)) (EncodeToString src'))
  end.

(** [hex.DecodeString], through [fromHexChar]. *)
Definition fromHexChar (c : ascii) : option Z :=
  let n := Z.of_N (N_of_ascii c) in
  if (48 <=? n) && (n <=? 57) then Some (n - 48)
  else if (97 <=? n) && (n <=? 102) then Some (n - 97 + 10)
  else if (65 <=? n) && (n <=? 70) then Some (n - 65 + 10)
  else None.

Fixpoint DecodeString (s : string) : option string :=
  match s with
  | EmptyString => Some EmptyString
  | String a (String b s') =>
      match fromHexChar a, fromHexChar b, DecodeString s' with
      | Some hi, Some lo, Some rest =>
          Some (String (ascii_of_N (Z.to_N (Z.lor (Z.shiftl hi 4) lo))) rest)
      | _, _, _ => None
      end
  | String _ EmptyString => None
  end.

(** A character among [0-9a-f]. *)
Definition is_lower_hex (c : ascii) : bool :=
  let n := Z.of_N (N_of_ascii c) in
  ((48 <=? n) && (n <=? 57)) || ((97 <=? n) && (n <=? 102)).

Fixpoint all_chars (P : ascii -> bool) (s : string) : bool :=
  match s with
  | EmptyString => true
  | String c s' => P c && all_chars P s'
  end.

Section WithSHA256.

(** [sha256.Sum256], as a string of 32 bytes. *)
Variable Sum256 : string -> string.

Fixpoint AddIssuerChain_kvs (chain : list Certificate_x509) (kvs : list KV) : list KV :=
  match chain with
  | [] => kvs
  | c :: chain' =>
      let id := Sum256 (Raw c) in
      let key := EncodeToString id in
      AddIssuerChain_kvs chain' (kvs ++ [{| K := key; V := Raw c |}])
  end.

(** [storeIssuers] is the field of [CTStorage] holding the wrapper, acting
    on the state [IS] of the issuer side store. *)
Definition AddIssuerChain {IS : Type} (storeIssuers : IS -> list KV -> IS * Outcome)
    (st : IS) (chain : list Certificate_x509) : IS * Outcome :=
  let kvs := AddIssuerChain_kvs chain [] in
  match storeIssuers st kvs with
  | (st', Returned (Some err)) =>
      (st', Returned (Some (errors_New ("error storing intermediates: " +:+ Error err))))
  | (st', Returned None) => (st', Returned None)
  | (st', Panicked) => (st', Panicked)
  end.

End WithSHA256.

(** A store that only records the batches handed to it. *)
Definition recording_store (log : list (list KV)) (kvs : list KV)
  : list (list KV) * Outcome :=
  (log ++ [kvs], Returned None).

(** The record [AddIssuerChain] builds for a certificate. *)
Definition issuer_record (Sum256 : string -> string) (c : Certificate_x509) : KV :=
  {| K := EncodeToString (Sum256 (Raw c)); V := Raw c |}.

Section WrapperRuns.

Context {S : Type} {store : IssuerStorage S}.

(** The keys the wrapper forwards for a batch. *)
Definition forwarded (c : IssuerCache S) (kv : list KV) : list KV :=
  filter (fun x => K x ∉ cache_m c) kv.

(** Successive calls of the wrapper.  [acked] collects the keys of the
    batches for which the underlying store returned success. *)
Fixpoint cachedStoreIssuers_run (c : IssuerCache S) (acked : gset string)
    (batches : list (list KV)) : IssuerCache S * gset string :=
  match batches with
  | [] => (c, acked)
  | kv :: batches' =>
      let acked' :=
        match AddIssuersIfNotExist (store_s c) (forwarded c kv) with
        | (_, Returned None) => acked ∪ list_to_set (K <$> forwarded c kv)
        | _ => acked
        end in
      cachedStoreIssuers_run (cachedStoreIssuers c kv).1 acked' batches'
  end.

End WrapperRuns.

Section Recovery.

Variable publishedCheckpoint : Z -> Result string.
Variable ReadEntryBundle : Z -> Z -> Result string.
Variable PartialTileSize : Z -> Z -> Z -> Z.
Variable ParseUint : string -> Result Z.
Variable ExtractTimestampFromBundle : string -> Z -> Result Z.

(** [t] is the timestamp stored in the integrated log for leaf [index]: the
    checkpoint covering [index] has a size line, and the entry at position
    [index mod 256] of bundle [index / 256], read at the width that size
    gives, carries [t]. *)
Definition integrated_timestamp (index t : Z) : Prop :=
  exists cp ckptSize eb,
    publishedCheckpoint index = Ok cp /\
    (2 <= length (SplitN cp newline 3))%nat /\
    ParseUint (nth 1 (SplitN cp newline 3) EmptyString) = Ok ckptSize /\
    ReadEntryBundle (index / 256) (PartialTileSize 0 (index / 256) ckptSize) = Ok eb /\
    ExtractTimestampFromBundle eb (index mod 256) = Ok t.

End Recovery.

(** [CTStorage] with the awaiter switched on or off. *)
Definition with_awaiter (b : bool) (cts : CTStorage) : CTStorage :=
  {| enableAwaiter := b; maxDedupeFutureInFlight := maxDedupeFutureInFlight cts |}.

Definition record_call (c : Call) (st : CTState) : CTState :=
  {| dedupeFutureInFlight := dedupeFutureInFlight st; calls := calls st ++ [c] |}.

(** *** [NewCTStorage] and repeated recoveries *)

(** The fields of [CTStorageOptions] that are plain values; the appender, the
    reader and the issuer storage are the collaborators above. *)
Record CTStorageOptions : Type := {
  EnableAwaiter : bool;
  MaxDedupeInFlight : Z;
}.

(** [NewCTStorage]: the storage with its fields taken from the options, and
    the zero value of the counter. *)
Definition NewCTStorage (opts : CTStorageOptions) : CTStorage * CTState :=
  ({| enableAwaiter := EnableAwaiter opts;
      maxDedupeFutureInFlight := MaxDedupeInFlight opts |},
   {| dedupeFutureInFlight := 0; calls := [] |}).

(** The error [dedupeFuture] pushes back with. *)
Definition pushback_error : error :=
  Errorf_w "too many duplicate submissions " ErrPushback.

Definition is_CallAwait (c : Call) : bool :=
  match c with CallAwait _ => true | _ => false end.

Definition is_CallReadEntryBundle (c : Call) : bool :=
  match c with CallReadEntryBundle _ _ => true | _ => false end.

(** A string without line feed. *)
Definition newline_free (s : string) : bool :=
  all_chars (fun c => negb (bool_decide (c = newline))) s.

Section Recoveries.

Variable publishedCheckpoint : Z -> Result string.
Variable ReadEntryBundle : Z -> Z -> Result string.
Variable PartialTileSize : Z -> Z -> Z -> Z.
Variable ParseUint : string -> Result Z.
Variable ExtractTimestampFromBundle : string -> Z -> Result Z.

(** Recoveries one after the other, with no tick of the reset job between
    them; the results are in call order. *)
Fixpoint dedupeFuture_each (cts : CTStorage) (fs : list IndexFuture) (st : CTState)
  : list (Result (Z * Z)) * CTState :=
  match fs with
  | [] => ([], st)
  | f :: fs' =>
      let r := dedupeFuture publishedCheckpoint ReadEntryBundle PartialTileSize
                 ParseUint ExtractTimestampFromBundle cts f st in
      let rs := dedupeFuture_each cts fs' r.2 in
      (r.1 :: rs.1, rs.2)
  end.

End Recoveries.

(** *** Overlapping calls of the caching wrapper *)

(** Where a call of the wrapper stands: in the first loop ([kv] still to look
    up, [req] built so far), before the call of the store, in the second loop
    before the test of [len(m)], between that test and [mu.Lock], or
    returned. *)
Inductive wrapper_pc : Type :=
| Looking (kv req : list KV)
| Calling (req : list KV)
| Checking (req : list KV)
| Inserting (x : KV) (req : list KV)
| Finished (out : Outcome).

Section WrapperSteps.

Context {S : Type} {store : IssuerStorage S}.

(** One step of a call on the map and store it shares with the other calls.
    A lookup under [mu.RLock], the call of the store, the test of [len(m)]
    (made outside the lock) and an insertion under [mu.Lock] are one step
    each. *)
Definition wrapper_step (pc : wrapper_pc) (c : IssuerCache S)
  : wrapper_pc * IssuerCache S :=
  match pc with
  | Looking [] req => (Calling req, c)
  | Looking (x :: kv) req =>
      if bool_decide (K x ∈ cache_m c) then (Looking kv req, c)
      else (Looking kv (req ++ [x]), c)
  | Calling req =>
      match AddIssuersIfNotExist (store_s c) req with
      | (s', Returned (Some err)) =>
          (Finished (Returned (Some (errors_New
             ("AddIssuersIfNotExist()s: error storing issuer data in the underlying IssuerStorage: "
              +:+ Error err)))),
           {| cache_m := cache_m c; store_s := s' |})
      | (s', Panicked) => (Finished Panicked, {| cache_m := cache_m c; store_s := s' |})
      | (s', Returned None) => (Checking req, {| cache_m := cache_m c; store_s := s' |})
      end
  | Checking [] => (Finished (Returned None), c)
  | Checking (x :: req) =>
      if Z.of_nat (size (cache_m c)) >=? maxCachedIssuerKeys
      then (Finished (Returned None), c)
      else (Inserting x req, c)
  | Inserting x req =>
      (Checking req, {| cache_m := {[ K x ]} ∪ cache_m c; store_s := store_s c |})
  | Finished out => (Finished out, c)
  end.

(** Calls running at once: the schedule names, step after step, the call
    that moves. *)
Fixpoint wrapper_interleave (schedule : list nat) (running : list wrapper_pc)
    (c : IssuerCache S) : list wrapper_pc * IssuerCache S :=
  match schedule with
  | [] => (running, c)
  | i :: schedule' =>
      match running !! i with
      | None => wrapper_interleave schedule' running c
      | Some pc =>
          let r := wrapper_step pc c in
          wrapper_interleave schedule' (<[i := r.1]> running) r.2
      end
  end.

End WrapperSteps.

(** The [i]-th of a family of distinct issuer records, and the batches of
    [n] calls storing one each, from the [a]-th on. *)
Definition issuer_of (i : nat) : KV := {| K := pretty i; V := pretty i |}.
Definition issuer_batches (a n : nat) : list (list KV) :=
  (fun i => [issuer_of i]) <$> seq a n.

End Storage.

(** ** The load test's leaf reader *)

Module Loadtest.

(** Conversion to [uint64]. *)
Definition to_uint64 (z : Z) : Z := z mod 2 ^ 64.

(** A call that returns or panics. *)
Inductive Go (A : Type) : Type :=
| Done (a : A)
| Panic.
Arguments Done {A} a.
Arguments Panic {A}.

(** One call of the closure [MonotonicallyIncreasingNextLeaf] returns, on the
    captured variable [i]: the result and the new [i]. *)
Definition MonotonicallyIncreasingNextLeaf (i size : Z) : Z * Z :=
  if i <? size then (i, to_uint64 (i + 1)) else (size, i).

(** Successive calls of the closure, one per size; each result is kept with
    the size it was asked for. *)
Fixpoint MonotonicallyIncreasingNextLeaf_calls (i : Z) (sizes : list Z)
  : list (Z * Z) * Z :=
  match sizes with
  | [] => ([], i)
  | size :: sizes' =>
      let r := MonotonicallyIncreasingNextLeaf i size in
      let rs := MonotonicallyIncreasingNextLeaf_calls r.2 sizes' in
      ((size, r.1) :: rs.1, rs.2)
  end.

(** The leaves [LeafReader.Run] goes on to read: it skips a result that is
    not below the size. *)
Definition leaves_read (results : list (Z * Z)) : list Z :=
  snd <$> filter (fun p => p.2 < p.1) results.

Record leafBundleCache : Type := {
  start : Z;
  leaves : list string;
}.

(** The cache of a [LeafReader], and the bundles it asked the client for. *)
Record LeafReader : Type := {
  c : leafBundleCache;
  fetches : list (Z * Z);
}.

Section WithClient.

(** [base64.StdEncoding.DecodeString]: the bytes decoded and the error; the
    slice it returns is never nil. *)
Variable DecodeString : string -> string * option error.
(** The entries of [client.GetEntryBundle] for a bundle index and log size. *)
Variable GetEntryBundle : Z -> Z -> Result (list string).

(** [leafBundleCache.get]; a nil slice is [None]. *)
Definition get (tc : leafBundleCache) (i : Z) : Go (option string * option error) :=
  let end_ := to_uint64 (start tc + Z.of_nat (length (leaves tc))) in
  if (start tc <=? i) && (i <? end_) then
    match leaves tc !! Z.to_nat (to_uint64 (i - start tc)) with
    | Some leaf => Done (Some (DecodeString leaf).1, (DecodeString leaf).2)
    | None => Panic
    end
  else Done (None, Some (errors_New "not found")).

Definition getLeaf (r : LeafReader) (i logSize : Z) : LeafReader * Go (Result string) :=
  if i >=? logSize then
    (r, Done (Err (errors_New ("requested leaf " +:+ pretty i +:+ " >= log size "
                               +:+ pretty logSize))))
  else
    match get (c r) i with
    | Panic => (r, Panic)
    | Done (Some cached, _) => (r, Done (Ok cached))
    | Done (None, _) =>
        let index := i / Storage.EntryBundleWidth in
        let r1 := {| c := c r; fetches := fetches r ++ [(index, logSize)] |} in
        match GetEntryBundle index logSize with
        | Err err =>
            (r1, Done (Err (errors_New ("failed to get entry bundle: " +:+ Error err))))
        | Ok entries =>
            let ti := i mod Storage.EntryBundleWidth in
            let r2 := {| c := {| start := to_uint64 (i - ti); leaves := entries |};
                         fetches := fetches r1 |} in
            match entries !! Z.to_nat ti with
            | Some leaf => (r2, Done (Ok leaf))
            | None => (r2, Panic)
            end
        end
    end.

End WithClient.

End Loadtest.

(** ** Concrete environments used to run the definitions *)

Module Examples.
Import Config Storage.

(** A file system where every roots file loads, to an opaque pool. *)
Definition roots_ok : string -> Result unit := fun _ => Ok tt.
(** An [Atoi] accepting single digits only. *)
Definition atoi_digit (s : string) : Result Z :=
  match s with
  | String c EmptyString =>
      let n := Z.of_N (N_of_ascii c) - 48 in
      if (0 <=? n) && (n <=? 9) then Ok n
      else Err (errors_New "invalid syntax")
  | _ => Err (errors_New "invalid syntax")
  end.
Definition sprint_key : PublicKey -> string := fun _ => "key".

Definition cfg_plain : CertValidationConfig :=
  {| RootsPemFile := "roots.pem"; RejectExpired := false; RejectUnexpired := false;
     ExtKeyUsages := EmptyString; RejectExtensions := EmptyString;
     NotAfterStart := None; NotAfterLimit := None |}.

Definition cfg_with_ekus (ekus : string) : CertValidationConfig :=
  {| RootsPemFile := "roots.pem"; RejectExpired := false; RejectUnexpired := false;
     ExtKeyUsages := ekus; RejectExtensions := EmptyString;
     NotAfterStart := None; NotAfterLimit := None |}.

Definition cfg_reject_all : CertValidationConfig :=
  {| RootsPemFile := "roots.pem"; RejectExpired := true; RejectUnexpired := true;
     ExtKeyUsages := EmptyString; RejectExtensions := EmptyString;
     NotAfterStart := None; NotAfterLimit := None |}.

Definition signer_P256 : Signer := {| Public := ecdsa_PublicKey P256 1 2 |}.
Definition signer_P384 : Signer := {| Public := ecdsa_PublicKey P384 1 2 |}.
Definition signer_RSA : Signer := {| Public := rsa_PublicKey 3233 17 |}.

(** A log where index 300 was integrated under a checkpoint of size 301, and
    whose bundle 1 carries the timestamp 1700000000000 at position 44. *)
Definition entry_at (ts : Z) : Entry :=
  {| Timestamp := ts; IsPrecert := false; Certificate := "der"; Precertificate := EmptyString;
     IssuerKeyHash := EmptyString; FingerprintsChain := [] |}.
Definition store_dup : Entry -> IndexFuture :=
  fun _ => Ok {| Index := 300; IsDup := true |}.
Definition store_new : Entry -> IndexFuture :=
  fun _ => Ok {| Index := 300; IsDup := false |}.
Definition checkpoint_301 : Z -> Result string :=
  fun _ => Ok ("example.com/log" +:+ String newline ("301" +:+ String newline "hash")).
Definition read_bundle : Z -> Z -> Result string :=
  fun index _ => if index =? 1 then Ok "bundle-1" else Err ErrNotExist.
Definition partial_size : Z -> Z -> Z -> Z :=
  fun level index logSize =>
    let sizeAtLevel := Z.shiftr logSize (level * 8) in
    if index <? sizeAtLevel / 256 then 0 else sizeAtLevel mod 256.
Definition parse_301 (s : string) : Result Z :=
  if bool_decide (s = "301") then Ok 301 else Err (errors_New "invalid syntax").
Definition extract_ts : string -> Z -> Result Z :=
  fun eb N =>
    if bool_decide (eb = "bundle-1") && (N =? 44) then Ok 1700000000000
    else Err (errors_New "short bundle").

Definition cts_default : CTStorage :=
  {| enableAwaiter := true; maxDedupeFutureInFlight := 100 |}.
Definition cts_limit_zero : CTStorage :=
  {| enableAwaiter := true; maxDedupeFutureInFlight := 0 |}.
Definition st_fresh : CTState := {| dedupeFutureInFlight := 0; calls := [] |}.

(** An S3 bucket already holding the object of key "a". *)
Definition join_slash (prefix key : string) : string := prefix +:+ "/" +:+ key.
Definition quote_plain (s : string) : string := s.
Definition no_fault : string -> option aws.S3Error := fun _ => None.
Definition bucket_with_a : aws.IssuersStorage :=
  {| aws.s3Client := {[ "issuers/a" := "old" ]}; aws.bucket := "b";
     aws.prefix := "issuers"; aws.contentType := "application/pkix-cert" |}.
Definition records_a_b : list KV :=
  [ {| K := "a"; V := "cert-a" |}; {| K := "b"; V := "cert-b" |} ].

Definition sum_id (der : string) : string := der.

(** An [Atoi] for small decimal numbers, without sign. *)
Fixpoint atoi_digits (s : string) (acc : Z) : Result Z :=
  match s with
  | EmptyString => Ok acc
  | String ch s' =>
      let n := Z.of_N (N_of_ascii ch) - 48 in
      if (0 <=? n) && (n <=? 9) then atoi_digits s' (10 * acc + n)
      else Err (errors_New "invalid syntax")
  end.
Definition atoi_decimal (s : string) : Result Z :=
  match s with
  | EmptyString => Err (errors_New "invalid syntax")
  | _ => atoi_digits s 0
  end.

Definition cfg_full : CertValidationConfig :=
  {| RootsPemFile := "roots.pem"; RejectExpired := true; RejectUnexpired := false;
     ExtKeyUsages := "ServerAuth,ClientAuth,OCSPSigning";
     RejectExtensions := "1.2.3.4,5.6.7.8";
     NotAfterStart := Some 100; NotAfterLimit := Some 200 |}.

Definition cfg_bad_extension : CertValidationConfig :=
  {| RootsPemFile := "roots.pem"; RejectExpired := false; RejectUnexpired := false;
     ExtKeyUsages := EmptyString; RejectExtensions := "1.2.3.4,one.banana";
     NotAfterStart := None; NotAfterLimit := None |}.

(** An appender that pushes back, and an awaiter that is cancelled. *)
Definition store_pushback : Entry -> IndexFuture := fun _ => Err ErrPushback.
Definition checkpoint_cancelled : Z -> Result string :=
  fun _ => Err (errors_New "context canceled").
Definition checkpoint_no_size : Z -> Result string := fun _ => Ok "garbage".

Definition dup_300 : IndexFuture := Ok {| Index := 300; IsDup := true |}.
Definition opts_limit_2 : CTStorageOptions :=
  {| EnableAwaiter := true; MaxDedupeInFlight := 2 |}.

(** An empty S3 bucket, one that fails on "issuers/b", and a chain. *)
Definition bucket_empty : aws.IssuersStorage :=
  {| aws.s3Client := ∅; aws.bucket := "b";
     aws.prefix := "issuers"; aws.contentType := "application/pkix-cert" |}.
Definition fault_on_b : string -> option aws.S3Error :=
  fun name => if bool_decide (name = "issuers/b") then Some (aws.TransportError "timeout")
              else None.
Definition chain_two : list Certificate_x509 :=
  [ {| Raw := "AZ" |}; {| Raw := "root" |} ].

(** An in-memory store that fails on every call. *)
Definition failing_store : IssuerStorage unit :=
  fun s _ => (s, Returned (Some (errors_New "disk full"))).

(** One key short of a full cache. *)
Definition almost_full : nat := Z.to_nat (maxCachedIssuerKeys - 1).
Definition record_b : KV := {| K := "b"; V := "cert-b" |}.

(** A client serving bundle 1 with 45 entries, and an identity decoder. *)
Definition bundle_45 : Z -> Z -> Result (list string) :=
  fun index _ => if index =? 1 then Ok (replicate 45 "entry")
                 else Err (errors_New "no such bundle").
Definition decode_id (s : string) : string * option error := (s, None).
Definition reader_fresh : Loadtest.LeafReader :=
  {| Loadtest.c := {| Loadtest.start := 0; Loadtest.leaves := [] |};
     Loadtest.fetches := [] |}.

End Examples.

(** * Properties of [config.go] *)

Section StringFacts.

Lemma HasPrefix_app (p s : string) : HasPrefix (p +:+ s) p = true.
Proof.
  induction p as [|c p IH]; simpl; [done|].
  rewrite IH. by rewrite bool_decide_eq_true_2.
Qed.

Lemma Contains_HasPrefix (s sub : string) : HasPrefix s sub = true -> Contains s sub = true.
Proof. intros H. destruct s; simpl in *; rewrite H; done. Qed.

Lemma Contains_app_r (p s sub : string) :
  Contains s sub = true -> Contains (p +:+ s) sub = true.
Proof.
  intros H. induction p as [|c p IH]; simpl; [done|].
  rewrite IH. apply orb_true_r.
Qed.

Lemma Contains_app_l (p s : string) : Contains (p +:+ s) p = true.
Proof. apply Contains_HasPrefix, HasPrefix_app. Qed.

End StringFacts.

Section ConfigProperties.
Import Config.

Variable PEMCertPool : Type.
Variable AppendCertsFromPEMFile : string -> Result PEMCertPool.
Variable Atoi : string -> Result Z.
Variable Sprint_key : PublicKey -> string.

Local Abbreviation newCertValidationOpts :=
  (Config.newCertValidationOpts PEMCertPool AppendCertsFromPEMFile Atoi).
Local Abbreviation New :=
  (Config.New PEMCertPool AppendCertsFromPEMFile Atoi Sprint_key).

Lemma New_propagates_config_error origin signer cfg e :
  newCertValidationOpts cfg = Err e ->
  exists e', New origin signer cfg = Err e' /\
    (forall sub, Contains (Error e) sub = true ->
       origin <> EmptyString -> (exists sg c x y, signer = Some sg /\ Public sg = ecdsa_PublicKey c x y) ->
       Contains (Error e') sub = true).
Proof.
  intros He. unfold Config.New. rewrite He.
  case_bool_decide as Ho.
  { eexists; split; [done|]. intros; done. }
  destruct signer as [sg|].
  2:{ eexists; split; [done|]. intros ? ? ? (? & ? & ? & ? & ? & ?); done. }
  destruct (Public sg) eqn:Hk.
  - eexists; split; [done|]. intros sub Hsub _ _. cbn [Error].
    by apply Contains_app_r.
  - eexists; split; [done|]. intros ? ? ? (? & ? & ? & ? & [= <-] & ?); congruence.
  - eexists; split; [done|]. intros ? ? ? (? & ? & ? & ? & [= <-] & ?); congruence.
  - eexists; split; [done|]. intros ? ? ? (? & ? & ? & ? & [= <-] & ?); congruence.
Qed.

Lemma newCertValidationOpts_contradictory cfg :
  rejects_everything cfg \/ limit_before_start cfg ->
  exists e, newCertValidationOpts cfg = Err e.
Proof.
  intros Hc. unfold Config.newCertValidationOpts.
  case_bool_decide; [by eexists|].
  destruct (AppendCertsFromPEMFile _); [|by eexists].
  destruct Hc as [[-> ->]|(start & limit & -> & -> & ->)]; simpl.
  - by eexists.
  - destruct (_ && _); by eexists.
Qed.

(** Past the loading of the roots, the two checks fail with their own
    messages. *)
Lemma newCertValidationOpts_contradictory_message cfg roots :
  RootsPemFile cfg <> EmptyString ->
  AppendCertsFromPEMFile (RootsPemFile cfg) = Ok roots ->
  (rejects_everything cfg ->
   newCertValidationOpts cfg = Err (errors_New "rejecting all certificates")) /\
  (~ rejects_everything cfg -> limit_before_start cfg ->
   newCertValidationOpts cfg = Err (errors_New "limit before start")).
Proof.
  intros Hne Hroots. unfold Config.newCertValidationOpts.
  rewrite bool_decide_eq_false_2, Hroots.
  2:{ destruct (RootsPemFile cfg); simpl; [done|lia]. }
  split.
  - intros [-> ->]. done.
  - intros Hn (start & limit & -> & -> & ->).
    destruct (RejectExpired cfg) eqn:E1, (RejectUnexpired cfg) eqn:E2; simpl; try done.
    exfalso. apply Hn. by split.
Qed.

(** C4: a configuration that rejects both expired and unexpired
    certificates, or whose NotAfterLimit lies before its NotAfterStart, makes
    newCertValidationOpts return an error and no options, and hence New too. *)
Theorem contradictory_policy_rejected origin signer cfg :
  rejects_everything cfg \/ limit_before_start cfg ->
  (exists e, newCertValidationOpts cfg = Err e) /\
  (exists e, New origin signer cfg = Err e).
Proof.
  intros Hc. destruct (newCertValidationOpts_contradictory cfg Hc) as [e He].
  split; [by exists e|].
  destruct (New_propagates_config_error origin signer cfg e He) as (e' & He' & _).
  by exists e'.
Qed.

(** C3 as amended: New rejects every signer whose public key is not an ECDSA
    key (RSA, Ed25519, ...), and looks no further than the key type: an ECDSA
    signer on any curve, P-256 or not, is accepted whenever the origin is
    non-empty and the validation config is valid. *)
Theorem New_checks_key_type_only origin sg cfg :
  (is_ecdsa (Public sg) = false -> exists e, New origin (Some sg) cfg = Err e) /\
  (is_ecdsa (Public sg) = true -> origin <> EmptyString ->
   forall opts, newCertValidationOpts cfg = Ok opts ->
     New origin (Some sg) cfg =
       Ok {| Origin := origin; Signer_ := sg; CertValidationOpts_ := opts |}).
Proof.
  unfold Config.New. split.
  - intros Hk. case_bool_decide; [by eexists|].
    destruct (Public sg); try discriminate; by eexists.
  - intros Hk Ho opts Hopts.
    rewrite bool_decide_eq_false_2 by done.
    destruct (Public sg); try discriminate. by rewrite Hopts.
Qed.

Lemma stringToKeyUsage_Any_inv (kuStr : string) :
  stringToKeyUsage !! kuStr = Some ExtKeyUsageAny -> kuStr = "Any".
Proof.
  intros H. apply elem_of_list_to_map_2 in H.
  unfold stringToKeyUsage_entries in H.
  repeat (apply elem_of_cons in H as [H|H]; [congruence|]).
  by apply elem_of_nil in H.
Qed.

(** The loop stops with an error at an unknown name reached before any
    ["Any"]. *)
Lemma extKeyUsages_loop_unknown (pre post : list string) (u : string) acc :
  Forall known pre -> "Any" ∉ pre -> stringToKeyUsage !! u = None ->
  extKeyUsages_loop (pre ++ u :: post) acc =
    Err (errors_New ("unknown extended key usage: " +:+ u)).
Proof.
  intros Hknown. revert acc.
  induction Hknown as [|k pre [ku Hku] _ IH]; intros acc Hany Hu; simpl.
  - by rewrite Hu.
  - rewrite Hku. apply not_elem_of_cons in Hany as [Hk Hany].
    rewrite bool_decide_eq_false_2; [by apply IH|].
    intros ->. by apply Hk, eq_sym, stringToKeyUsage_Any_inv.
Qed.

(** The loop never returns a non-empty list when ["Any"] is in the list. *)
Lemma extKeyUsages_loop_Any (l : list string) acc ekus :
  "Any" ∈ l -> extKeyUsages_loop l acc = Ok ekus -> ekus = [].
Proof.
  revert acc. induction l as [|k l IH]; intros acc Hin; simpl.
  - by apply elem_of_nil in Hin.
  - destruct (stringToKeyUsage !! k) as [ku|] eqn:Hk; [|done].
    case_bool_decide as Hku; [congruence|].
    apply elem_of_cons in Hin as [<-|Hin]; [|by apply IH].
    vm_compute in Hk. congruence.
Qed.

Lemma unknown_eku_message (u : string) :
  Contains ("unknown extended key usage: " +:+ u) "unknown extended key usage" = true.
Proof. exact (Contains_app_l "unknown extended key usage" (": " +:+ u)). Qed.

(** C5 as amended: once the roots are loaded and the policy checks passed,
    an unknown name met before any "Any" entry makes config construction fail
    with an error containing "unknown extended key usage" (names after the
    first "Any" are not looked at); and whenever the list contains "Any" and
    construction succeeds, the options carry an empty EKU allowlist. *)
Theorem extKeyUsages_validated cfg :
  (forall roots pre u post,
     RootsPemFile cfg <> EmptyString ->
     AppendCertsFromPEMFile (RootsPemFile cfg) = Ok roots ->
     ~ rejects_everything cfg -> ~ limit_before_start cfg ->
     lExtKeyUsages cfg = pre ++ u :: post ->
     Forall known pre -> "Any" ∉ pre -> stringToKeyUsage !! u = None ->
     exists e, newCertValidationOpts cfg = Err e /\
       Contains (Error e) "unknown extended key usage" = true /\
       forall origin sg, origin <> EmptyString -> is_ecdsa (Public sg) = true ->
         exists e', New origin (Some sg) cfg = Err e' /\
           Contains (Error e') "unknown extended key usage" = true) /\
  (forall opts, "Any" ∈ lExtKeyUsages cfg ->
     newCertValidationOpts cfg = Ok opts -> extKeyUsages opts = []).
Proof.
  split.
  - intros roots pre u post Hne Hroots Hrej Hlim Hl Hknown Hany Hu.
    assert (newCertValidationOpts cfg =
              Err (errors_New ("unknown extended key usage: " +:+ u))) as He.
    { unfold Config.newCertValidationOpts.
      rewrite bool_decide_eq_false_2, Hroots.
      2:{ destruct (RootsPemFile cfg); simpl; [done|lia]. }
      destruct (RejectExpired cfg && RejectUnexpired cfg) eqn:Hboth.
      { exfalso. apply Hrej. by apply andb_true_iff in Hboth. }
      destruct (NotAfterStart cfg) as [start|] eqn:Hs,
               (NotAfterLimit cfg) as [limit|] eqn:Hli;
        try (rewrite Hl, extKeyUsages_loop_unknown by done; done).
      destruct (Before limit start) eqn:Hb.
      { exfalso. apply Hlim. by exists start, limit. }
      by rewrite Hl, extKeyUsages_loop_unknown. }
    eexists; split; [exact He|]. split; [apply unknown_eku_message|].
    intros origin sg Ho Hk.
    destruct (New_propagates_config_error origin (Some sg) cfg _ He)
      as (e' & He' & Hsub).
    exists e'. split; [done|]. apply Hsub; [apply unknown_eku_message|done|].
    destruct (Public sg) eqn:Hp; try discriminate. by eexists _, _, _, _.
  - intros opts Hin. unfold Config.newCertValidationOpts.
    case_bool_decide; [done|].
    destruct (AppendCertsFromPEMFile _); [|done].
    destruct (_ && _); [done|].
    destruct (match NotAfterStart cfg with Some _ => _ | None => _ end); [done|].
    destruct (extKeyUsages_loop _ _) as [ekus|] eqn:Hloop; [|done].
    apply extKeyUsages_loop_Any in Hloop as ->; [|done].
    case_bool_decide; [by intros [= <-]|].
    destruct (parseOIDs _ _); [by intros [= <-]|done].
Qed.

End ConfigProperties.

(** C4, run: both rejections set. *)
Lemma contradictory_policy_rejected_witness :
  Config.rejects_everything Examples.cfg_reject_all /\
  (exists e, Config.newCertValidationOpts unit Examples.roots_ok Examples.atoi_digit
               Examples.cfg_reject_all = Err e) /\
  (exists e, Config.New unit Examples.roots_ok Examples.atoi_digit Examples.sprint_key
               "example.com/log" (Some Examples.signer_P256) Examples.cfg_reject_all = Err e).
Proof.
  split; [by split|].
  apply (contradictory_policy_rejected unit Examples.roots_ok Examples.atoi_digit
           Examples.sprint_key "example.com/log" (Some Examples.signer_P256)
           Examples.cfg_reject_all).
  left. split; reflexivity.
Defined.

(** C3, run: an RSA signer is rejected and a P-256 signer accepted. *)
Lemma New_checks_key_type_only_witness :
  (exists e, Config.New unit Examples.roots_ok Examples.atoi_digit Examples.sprint_key
               "example.com/log" (Some Examples.signer_RSA) Examples.cfg_plain = Err e) /\
  is_Err (Config.New unit Examples.roots_ok Examples.atoi_digit Examples.sprint_key
            "example.com/log" (Some Examples.signer_P256) Examples.cfg_plain) = false.
Proof.
  pose proof (New_checks_key_type_only unit Examples.roots_ok Examples.atoi_digit
                Examples.sprint_key "example.com/log" Examples.signer_RSA
                Examples.cfg_plain) as [Hrsa _].
  pose proof (New_checks_key_type_only unit Examples.roots_ok Examples.atoi_digit
                Examples.sprint_key "example.com/log" Examples.signer_P256
                Examples.cfg_plain) as [_ Hp256].
  split.
  - apply Hrsa. reflexivity.
  - rewrite (Hp256 eq_refl ltac:(discriminate) _ eq_refl). reflexivity.
Defined.

(** C3 as stated fails: an ECDSA signer on P-384 is accepted. *)
Lemma New_accepts_P384 :
  Config.Public Examples.signer_P384 = Config.ecdsa_PublicKey Config.P384 1 2 /\
  is_Err (Config.New unit Examples.roots_ok Examples.atoi_digit Examples.sprint_key
            "example.com/log" (Some Examples.signer_P384) Examples.cfg_plain) = false.
Proof. split; reflexivity. Qed.

(** C5, run: "ClientAuth,TimeStomping" is refused, and "ServerAuth,Any"
    yields an empty allowlist. *)
Lemma extKeyUsages_validated_witness :
  (exists e, Config.newCertValidationOpts unit Examples.roots_ok Examples.atoi_digit
               (Examples.cfg_with_ekus "ClientAuth,TimeStomping") = Err e /\
             Contains (Error e) "unknown extended key usage" = true) /\
  (forall opts, Config.newCertValidationOpts unit Examples.roots_ok Examples.atoi_digit
                  (Examples.cfg_with_ekus "ServerAuth,Any") = Ok opts ->
                Config.extKeyUsages opts = []).
Proof.
  split.
  - destruct (extKeyUsages_validated unit Examples.roots_ok Examples.atoi_digit
                Examples.sprint_key (Examples.cfg_with_ekus "ClientAuth,TimeStomping"))
      as [H _].
    destruct (H tt ["ClientAuth"] "TimeStomping" []) as (e & He & Hsub & _).
    + discriminate.
    + reflexivity.
    + intros [? ?]; discriminate.
    + intros (? & ? & ? & _); discriminate.
    + reflexivity.
    + repeat constructor. by exists Config.ExtKeyUsageClientAuth.
    + intros Hin. apply elem_of_cons in Hin as [Hin|Hin]; [discriminate|].
      by apply elem_of_nil in Hin.
    + reflexivity.
    + by exists e.
  - intros opts.
    apply (extKeyUsages_validated unit Examples.roots_ok Examples.atoi_digit
             Examples.sprint_key (Examples.cfg_with_ekus "ServerAuth,Any")).
    apply list_elem_of_In. vm_compute. auto.
Defined.

(** C5 as stated fails: "Any,TimeStomping" contains an unknown name and is
    accepted, the loop having stopped at "Any". *)
Lemma unknown_eku_after_Any_accepted :
  "TimeStomping" ∈ Config.lExtKeyUsages (Examples.cfg_with_ekus "Any,TimeStomping") /\
  Config.stringToKeyUsage !! "TimeStomping" = None /\
  is_Err (Config.newCertValidationOpts unit Examples.roots_ok Examples.atoi_digit
            (Examples.cfg_with_ekus "Any,TimeStomping")) = false.
Proof.
  split; [|split]; [|reflexivity|reflexivity].
  apply list_elem_of_In. vm_compute. auto.
Qed.

(** * Properties of [storage/storage.go] *)

Section StorageProperties.
Import Storage.

Variable storeData : Entry -> IndexFuture.
Variable publishedCheckpoint : Z -> Result string.
Variable ReadEntryBundle : Z -> Z -> Result string.
Variable PartialTileSize : Z -> Z -> Z -> Z.
Variable ParseUint : string -> Result Z.
Variable ExtractTimestampFromBundle : string -> Z -> Result Z.

Local Abbreviation dedupeFuture :=
  (Storage.dedupeFuture publishedCheckpoint ReadEntryBundle PartialTileSize
     ParseUint ExtractTimestampFromBundle).
Local Abbreviation Add :=
  (Storage.Add storeData publishedCheckpoint ReadEntryBundle PartialTileSize
     ParseUint ExtractTimestampFromBundle).
Local Abbreviation integrated_timestamp :=
  (Storage.integrated_timestamp publishedCheckpoint ReadEntryBundle PartialTileSize
     ParseUint ExtractTimestampFromBundle).

#[local] Arguments SplitN : simpl never.
#[local] Arguments Z.div : simpl never.
#[local] Arguments Z.modulo : simpl never.

Ltac unfold_go :=
  unfold Storage.Add, Storage.dedupeFuture, Storage.Await, Storage.timestamp,
    wrapping, bind, call, try, ret, fail, Load, AtomicAdd, Store, EntryBundleWidth in *.

(** Over the limit, [dedupeFuture] pushes back at once: the counter is left
    as it is and no collaborator is called. *)
Lemma dedupeFuture_pushback cts f st :
  dedupeFutureInFlight st > to_int64 (maxDedupeFutureInFlight cts) ->
  dedupeFuture cts f st =
    (Err (Errorf_w "too many duplicate submissions " ErrPushback), st).
Proof.
  intros H. unfold_go.
  destruct (Z.gtb_spec (dedupeFutureInFlight st) (to_int64 (maxDedupeFutureInFlight cts)));
    [done|lia].
Qed.

(** Up to the limit included, [dedupeFuture] counts the call and awaits. *)
Lemma dedupeFuture_admitted cts f st :
  dedupeFutureInFlight st <= to_int64 (maxDedupeFutureInFlight cts) ->
  dedupeFutureInFlight (dedupeFuture cts f st).2 = to_int64 (dedupeFutureInFlight st + 1) /\
  exists tail, calls (dedupeFuture cts f st).2 = calls st ++ CallAwait f :: tail.
Proof.
  intros H. unfold_go.
  destruct (Z.gtb_spec (dedupeFutureInFlight st) (to_int64 (maxDedupeFutureInFlight cts)));
    [lia|].
  simpl. repeat case_match; simplify_eq/=; (split; [done|]);
    rewrite <- ?app_assoc; simpl; eexists; done.
Qed.

(** A successful recovery returns the future's index and the timestamp found
    in the integrated bundle. *)
Lemma dedupeFuture_Ok_inv cts f st i t st' :
  dedupeFuture cts f st = (Ok (i, t), st') ->
  exists idx, f = Ok idx /\ i = Index idx /\ integrated_timestamp (Index idx) t.
Proof.
  unfold Storage.integrated_timestamp. unfold_go. intros H.
  destruct (_ >? _); [done|]. simpl in H.
  destruct f as [idx|]; [|done]. simpl in H.
  destruct (publishedCheckpoint (Index idx)) as [cp|] eqn:Hcp; [|done]. simpl in H.
  case_bool_decide as Hlen; [done|]. simpl in H.
  destruct (ParseUint _) as [ckptSize|] eqn:Hsize; [|done]. simpl in H.
  destruct (ReadEntryBundle _ _) as [eb|] eqn:Heb; [|done]. simpl in H.
  destruct (ExtractTimestampFromBundle _ _) as [t'|] eqn:Ht; [|done].
  simplify_eq/=. exists idx. split; [done|]. split; [done|].
  exists cp, ckptSize, eb. repeat split; try done. lia.
Qed.

(** Conversely, within the limit the recovery succeeds whenever the log
    holds a timestamp for the index. *)
Lemma dedupeFuture_Ok cts idx t st :
  dedupeFutureInFlight st <= to_int64 (maxDedupeFutureInFlight cts) ->
  integrated_timestamp (Index idx) t ->
  (dedupeFuture cts (Ok idx) st).1 = Ok (Index idx, t).
Proof.
  intros Hlim (cp & ckptSize & eb & Hcp & Hlen & Hsize & Heb & Ht). unfold_go.
  destruct (Z.gtb_spec (dedupeFutureInFlight st) (to_int64 (maxDedupeFutureInFlight cts)));
    [lia|].
  simpl. rewrite Hcp. simpl.
  rewrite bool_decide_eq_false_2 by lia. simpl.
  rewrite Hsize. simpl. rewrite Heb. simpl. by rewrite Ht.
Qed.

(** What [dedupeFuture] returns, and the counter it leaves, depend on the
    counter only, not on the calls recorded so far. *)
Lemma dedupeFuture_calls_irrelevant cts f st1 st2 :
  dedupeFutureInFlight st1 = dedupeFutureInFlight st2 ->
  (dedupeFuture cts f st1).1 = (dedupeFuture cts f st2).1 /\
  dedupeFutureInFlight (dedupeFuture cts f st1).2 =
    dedupeFutureInFlight (dedupeFuture cts f st2).2.
Proof.
  intros Heq. unfold_go. rewrite Heq.
  destruct (_ >? _); [by simpl|]. simpl. rewrite Heq.
  destruct f as [idx|]; [|done]. simpl.
  destruct (publishedCheckpoint (Index idx)) as [cp|]; [|done]. simpl.
  case_bool_decide; [done|]. simpl.
  destruct (ParseUint _) as [ckptSize|]; [|done]. simpl.
  destruct (ReadEntryBundle _ _) as [eb|]; [|done]. simpl.
  destruct (ExtractTimestampFromBundle _ _) as [t'|]; done.
Qed.

(** On a duplicate, [Add] is [dedupeFuture] on the entry's future. *)
Lemma Add_duplicate cts entry idx st :
  storeData entry = Ok idx -> IsDup idx = true ->
  Add cts entry st = dedupeFuture cts (Ok idx) (record_call (CallStoreData entry) st).
Proof.
  intros Hf Hdup. unfold Storage.Add, bind, call, try, ret. rewrite Hf. simpl.
  by rewrite Hdup.
Qed.

(** C1: when the future of an entry resolves as a duplicate, any pair Add
    returns is the future's index with the timestamp read from the integrated
    bundle index div 256 at position index mod 256; within the pushback limit
    that pair is returned whenever the log holds it; and the result is the
    same for every entry resolving to that index, whatever its own
    Timestamp. *)
Theorem Add_duplicate_recovers_committed_timestamp cts entry idx st :
  storeData entry = Ok idx -> IsDup idx = true ->
  (forall i t st', Add cts entry st = (Ok (i, t), st') ->
     i = Index idx /\ integrated_timestamp (Index idx) t) /\
  (forall t, dedupeFutureInFlight st <= to_int64 (maxDedupeFutureInFlight cts) ->
     integrated_timestamp (Index idx) t ->
     (Add cts entry st).1 = Ok (Index idx, t)) /\
  (forall entry', storeData entry' = Ok idx ->
     (Add cts entry' st).1 = (Add cts entry st).1).
Proof.
  intros Hf Hdup. split; [|split].
  - intros i t st' H. rewrite (Add_duplicate _ _ _ _ Hf Hdup) in H.
    apply dedupeFuture_Ok_inv in H as (idx' & [= <-] & -> & Ht). done.
  - intros t Hlim Ht. rewrite (Add_duplicate _ _ _ _ Hf Hdup).
    by apply dedupeFuture_Ok.
  - intros entry' Hf'.
    rewrite (Add_duplicate _ _ _ _ Hf Hdup), (Add_duplicate _ _ _ _ Hf' Hdup).
    by apply dedupeFuture_calls_irrelevant.
Qed.

(** C6: when the future of an entry resolves as new, Add with the awaiter
    off returns the future's index and the entry's own Timestamp at once;
    with the awaiter on it first calls Await on the future and then returns
    that same pair, or Await's error; the counter of duplicates is untouched.
    A duplicate yields the same whether the awaiter is on or off. *)
Theorem Add_new_entry_keeps_timestamp cts entry idx st :
  storeData entry = Ok idx ->
  (IsDup idx = false ->
     (enableAwaiter cts = false ->
        Add cts entry st =
          (Ok (Index idx, Timestamp entry), record_call (CallStoreData entry) st)) /\
     (enableAwaiter cts = true ->
        (Add cts entry st).2 =
          record_call (CallAwait (Ok idx)) (record_call (CallStoreData entry) st) /\
        (Add cts entry st).1 =
          match publishedCheckpoint (Index idx) with
          | Ok _ => Ok (Index idx, Timestamp entry)
          | Err err =>
              Err (Errorf_w "error waiting for Tessera index future and its integration: " err)
          end)) /\
  (IsDup idx = true ->
     Add (with_awaiter true cts) entry st = Add (with_awaiter false cts) entry st).
Proof.
  intros Hf. split.
  - intros Hnew. split; intros Haw.
    + unfold_go. rewrite Hf. simpl. by rewrite Hnew, Haw.
    + unfold_go. rewrite Hf. simpl. rewrite Hnew, Haw. simpl.
      destruct (publishedCheckpoint (Index idx)); done.
  - intros Hdup. by rewrite !(Add_duplicate _ _ idx _ Hf Hdup).
Qed.

(** One tick of the reset job puts the counter back to zero. *)
Lemma resetDedupeFutureInFlightJob_tick_resets st :
  dedupeFutureInFlight (resetDedupeFutureInFlightJob_tick st).2 = 0 /\
  calls (resetDedupeFutureInFlightJob_tick st).2 = calls st.
Proof. done. Qed.

(** After a reset, the first [max + 1] recoveries in a row are admitted: the
    counter counts them, and only then does pushback set in. *)
Lemma dedupeFuture_admits_max_plus_one cts f st :
  0 <= maxDedupeFutureInFlight cts < 2 ^ 63 - 1 ->
  0 <= dedupeFutureInFlight st ->
  (dedupeFutureInFlight st <= maxDedupeFutureInFlight cts ->
   dedupeFutureInFlight (dedupeFuture cts f st).2 = dedupeFutureInFlight st + 1) /\
  (maxDedupeFutureInFlight cts < dedupeFutureInFlight st ->
   dedupeFuture cts f st =
     (Err (Errorf_w "too many duplicate submissions " ErrPushback), st)).
Proof.
  intros Hmax Hc.
  assert (forall z, 0 <= z < 2 ^ 63 -> to_int64 z = z) as Hsmall.
  { intros z Hz. unfold to_int64.
    change (2 ^ 63) with 9223372036854775808 in *.
    change (2 ^ 64) with 18446744073709551616.
    rewrite Z.mod_small; lia. }
  split; intros H.
  - destruct (dedupeFuture_admitted cts f st) as [-> _].
    + rewrite Hsmall; lia.
    + apply Hsmall. lia.
  - apply dedupeFuture_pushback. rewrite Hsmall; lia.
Qed.

(** C7, at the limit 0: right after a reset, a recovery is not pushed back;
    it is counted and goes on to await the future. *)
Theorem dedupeFuture_limit_zero_admits (awaiter : bool) f past :
  let cts := {| enableAwaiter := awaiter; maxDedupeFutureInFlight := 0 |} in
  let st := {| dedupeFutureInFlight := 0; calls := past |} in
  dedupeFutureInFlight (dedupeFuture cts f st).2 = 1 /\
  exists tail, calls (dedupeFuture cts f st).2 = past ++ CallAwait f :: tail.
Proof.
  intros cts st.
  destruct (dedupeFuture_admitted cts f st) as [Hc Ht]; [done|].
  split; [by rewrite Hc|done].
Qed.

End StorageProperties.

(** C1, run: a duplicate of leaf 300 gets the timestamp stored in bundle 1 at
    position 44, not its own. *)
Lemma Add_duplicate_recovers_committed_timestamp_witness :
  (Storage.Add Examples.store_dup Examples.checkpoint_301 Examples.read_bundle
     Examples.partial_size Examples.parse_301 Examples.extract_ts
     Examples.cts_default (Examples.entry_at 1800000000000) Examples.st_fresh).1
  = Ok (300, 1700000000000).
Proof.
  destruct (Add_duplicate_recovers_committed_timestamp Examples.store_dup
              Examples.checkpoint_301 Examples.read_bundle Examples.partial_size
              Examples.parse_301 Examples.extract_ts Examples.cts_default
              (Examples.entry_at 1800000000000)
              {| Storage.Index := 300; Storage.IsDup := true |}
              Examples.st_fresh) as (_ & Hserved & _); [reflexivity|reflexivity|].
  apply Hserved.
  - vm_compute. intros Hgt. discriminate Hgt.
  - exists ("example.com/log" +:+ String newline ("301" +:+ String newline "hash")),
      301, "bundle-1".
    repeat split; try reflexivity. simpl. lia.
Defined.

(** C6, run: a new entry keeps its own timestamp, awaiter off. *)
Lemma Add_new_entry_keeps_timestamp_witness :
  Storage.Add Examples.store_new Examples.checkpoint_301 Examples.read_bundle
    Examples.partial_size Examples.parse_301 Examples.extract_ts
    (Storage.with_awaiter false Examples.cts_default)
    (Examples.entry_at 1800000000000) Examples.st_fresh
  = (Ok (300, 1800000000000),
     Storage.record_call (Storage.CallStoreData (Examples.entry_at 1800000000000))
       Examples.st_fresh).
Proof.
  destruct (Add_new_entry_keeps_timestamp Examples.store_new
              Examples.checkpoint_301 Examples.read_bundle Examples.partial_size
              Examples.parse_301 Examples.extract_ts
              (Storage.with_awaiter false Examples.cts_default)
              (Examples.entry_at 1800000000000)
              {| Storage.Index := 300; Storage.IsDup := false |}
              Examples.st_fresh) as [Hnew _]; [reflexivity|].
  destruct Hnew as [Hoff _]; [reflexivity|].
  apply Hoff. reflexivity.
Defined.

(** C7, run: with the limit at 0 the first duplicate after a reset is served,
    and only the second one is pushed back. *)
Lemma dedupeFuture_limit_zero_first_served :
  let run := Storage.dedupeFuture Examples.checkpoint_301 Examples.read_bundle
               Examples.partial_size Examples.parse_301 Examples.extract_ts
               Examples.cts_limit_zero (Ok {| Storage.Index := 300; Storage.IsDup := true |}) in
  (run Examples.st_fresh).1 = Ok (300, 1700000000000) /\
  (run (run Examples.st_fresh).2).1 =
    Err (Errorf_w "too many duplicate submissions " Storage.ErrPushback).
Proof. split; reflexivity. Qed.

(** * Properties of the issuer stores *)

Section IssuerStores.
Import Storage.

(** The value the in-memory store ends up with for a key it did not hold:
    that of the first record of the batch carrying the key. *)
Lemma inmemory_AddIssuersIfNotExist_lookup (s : gmap string string) (kv : list KV) k :
  (inmemory.AddIssuersIfNotExist s kv).1 !! k =
    match s !! k with
    | Some v => Some v
    | None => V <$> head (filter (fun x => K x = k) kv)
    end.
Proof.
  revert s. induction kv as [|x kv IH]; intros s; simpl.
  - by destruct (s !! k).
  - destruct (s !! K x) as [old|] eqn:Hx.
    + rewrite IH. destruct (decide (K x = k)) as [<-|Hne].
      * by rewrite Hx.
      * by rewrite filter_cons_False.
    + rewrite IH. destruct (decide (K x = k)) as [<-|Hne].
      * rewrite lookup_insert_eq, Hx. by rewrite filter_cons_True.
      * rewrite lookup_insert_ne by done. by rewrite filter_cons_False.
Qed.

(** The in-memory store does what C2 asks: no error, stored keys untouched,
    every record of the batch stored afterwards. *)
Lemma inmemory_AddIssuersIfNotExist_spec (s : gmap string string) (kv : list KV) :
  (inmemory.AddIssuersIfNotExist s kv).2 = Returned None /\
  (forall k v, s !! k = Some v -> (inmemory.AddIssuersIfNotExist s kv).1 !! k = Some v) /\
  (forall x, x ∈ kv -> is_Some ((inmemory.AddIssuersIfNotExist s kv).1 !! K x)).
Proof.
  split; [|split].
  - revert s. induction kv as [|x kv IH]; intros s; simpl; [done|].
    destruct (s !! K x); apply IH.
  - intros k v Hk. by rewrite inmemory_AddIssuersIfNotExist_lookup, Hk.
  - intros x Hx. rewrite inmemory_AddIssuersIfNotExist_lookup.
    destruct (s !! K x); [done|].
    destruct (filter (fun y => K y = K x) kv) as [|y l] eqn:Hf; [|done].
    assert (x ∈ filter (fun y => K y = K x) kv) as Hin
      by (by apply list_elem_of_filter).
    rewrite Hf in Hin. by apply elem_of_nil in Hin.
Qed.

Section WithS3.

Variable path_Join : string -> string -> string.
Variable Quote : string -> string.
Variable s3_fault : string -> option aws.S3Error.

(** The S3 store returns nil at the first record whose object exists, and
    drops the records after it. *)
Lemma aws_AddIssuersIfNotExist_returns_at_existing (s : aws.IssuersStorage) x rest old :
  aws.s3Client s !! aws.keyToObjName path_Join s (K x) = Some old ->
  aws.AddIssuersIfNotExist path_Join Quote s3_fault s (x :: rest) = (s, Returned None).
Proof.
  intros Hx. unfold aws.AddIssuersIfNotExist. simpl.
  unfold aws.PutObject. rewrite Hx. simpl. by destruct s.
Qed.

End WithS3.

End IssuerStores.

(** C2, on the S3 store: the bucket holds key "a"; the batch [a; b] returns
    nil without writing "b", where the in-memory store writes it. *)
Theorem aws_AddIssuersIfNotExist_drops_rest :
  let r := Storage.aws.AddIssuersIfNotExist Examples.join_slash Examples.quote_plain
             Examples.no_fault Examples.bucket_with_a Examples.records_a_b in
  r.2 = Storage.Returned None /\
  Storage.aws.s3Client r.1 !! "issuers/b" = None /\
  (Storage.inmemory.AddIssuersIfNotExist {[ "a" := "old" ]} Examples.records_a_b).1 !! "b"
    = Some "cert-b".
Proof. vm_compute. done. Qed.

(** * Properties of the caching wrapper *)

Section CachingWrapper.
Import Storage.

Context {S : Type} {store : IssuerStorage S}.

Lemma maxCachedIssuerKeys_value : maxCachedIssuerKeys = 2 ^ 20.
Proof. reflexivity. Qed.

(** The first loop is a filter, in order. *)
Lemma cachedStoreIssuers_req_filter (m : gset string) (kv req : list KV) :
  cachedStoreIssuers_req m kv req = req ++ filter (fun x => K x ∉ m) kv.
Proof.
  revert req. induction kv as [|x kv IH]; intros req; simpl.
  - by rewrite app_nil_r.
  - case_bool_decide as Hx.
    + rewrite IH. by rewrite filter_cons_False by (intros Hn; by apply Hn).
    + rewrite IH, filter_cons_True by done. by rewrite <- app_assoc.
Qed.

Lemma cachedStoreIssuers_req_forwarded (c : IssuerCache S) (kv : list KV) :
  cachedStoreIssuers_req (cache_m c) kv [] = forwarded c kv.
Proof. by rewrite cachedStoreIssuers_req_filter. Qed.

Lemma size_add_key (k : string) (m : gset string) :
  (size ({[ k ]} ∪ m) <= Datatypes.S (size m))%nat.
Proof.
  destruct (decide (k ∈ m)) as [Hin|Hout].
  - assert ({[ k ]} ∪ m = m) as ->; [|lia].
    by apply subseteq_union_1_L, singleton_subseteq_l.
  - rewrite size_union by set_solver. rewrite size_singleton. lia.
Qed.

Lemma cachedStoreIssuers_fill_bounded (m : gset string) (req : list KV) :
  Z.of_nat (size m) <= maxCachedIssuerKeys ->
  Z.of_nat (size (cachedStoreIssuers_fill m req)) <= maxCachedIssuerKeys.
Proof.
  revert m. induction req as [|x req IH]; intros m Hm; simpl; [done|].
  rewrite Z.geb_leb. destruct (Z.leb_spec maxCachedIssuerKeys (Z.of_nat (size m))); [done|].
  apply IH. pose proof (size_add_key (K x) m). lia.
Qed.

Lemma cachedStoreIssuers_fill_full (m : gset string) (req : list KV) :
  maxCachedIssuerKeys <= Z.of_nat (size m) -> cachedStoreIssuers_fill m req = m.
Proof.
  intros Hm. destruct req as [|x req]; simpl; [done|].
  rewrite Z.geb_leb. by destruct (Z.leb_spec maxCachedIssuerKeys (Z.of_nat (size m))); [|lia].
Qed.

Lemma cachedStoreIssuers_fill_elem (m : gset string) (req : list KV) k :
  k ∈ cachedStoreIssuers_fill m req -> k ∈ m \/ k ∈ K <$> req.
Proof.
  revert m. induction req as [|x req IH]; intros m; simpl; [by left|].
  destruct (_ >=? _); [by left|].
  intros Hk. apply IH in Hk as [Hk|Hk].
  - apply elem_of_union in Hk as [Hk|Hk]; [|by left].
    apply elem_of_singleton in Hk as ->. right. apply elem_of_cons. by left.
  - right. apply elem_of_cons. by right.
Qed.

Lemma cachedStoreIssuers_fill_mono (m : gset string) (req : list KV) :
  m ⊆ cachedStoreIssuers_fill m req.
Proof.
  revert m. induction req as [|x req IH]; intros m; simpl; [done|].
  destruct (_ >=? _); [done|]. etrans; [|apply IH]. set_solver.
Qed.

(** One call: the store is called with the filtered batch, whatever the
    cache holds. *)
Lemma cachedStoreIssuers_store (c : IssuerCache S) (kv : list KV) :
  store_s (cachedStoreIssuers c kv).1 =
    (AddIssuersIfNotExist (store_s c) (filter (fun x => K x ∉ cache_m c) kv)).1.
Proof.
  unfold cachedStoreIssuers. rewrite cachedStoreIssuers_req_forwarded.
  unfold forwarded. destruct (AddIssuersIfNotExist _ _) as [s' [[err|]|]]; done.
Qed.

Lemma cachedStoreIssuers_bounded (c : IssuerCache S) (kv : list KV) :
  Z.of_nat (size (cache_m c)) <= maxCachedIssuerKeys ->
  Z.of_nat (size (cache_m (cachedStoreIssuers c kv).1)) <= maxCachedIssuerKeys.
Proof.
  intros Hc. unfold cachedStoreIssuers.
  destruct (AddIssuersIfNotExist _ _) as [s' [[err|]|]]; simpl; try done.
  by apply cachedStoreIssuers_fill_bounded.
Qed.

Lemma cachedStoreIssuers_full (c : IssuerCache S) (kv : list KV) :
  maxCachedIssuerKeys <= Z.of_nat (size (cache_m c)) ->
  cache_m (cachedStoreIssuers c kv).1 = cache_m c.
Proof.
  intros Hc. unfold cachedStoreIssuers.
  destruct (AddIssuersIfNotExist _ _) as [s' [[err|]|]]; simpl; try done.
  by apply cachedStoreIssuers_fill_full.
Qed.

(** An error or a panic of the store leaves the cache as it was. *)
Lemma cachedStoreIssuers_failure (c : IssuerCache S) (kv : list KV) :
  (AddIssuersIfNotExist (store_s c) (forwarded c kv)).2 <> Returned None ->
  cache_m (cachedStoreIssuers c kv).1 = cache_m c /\
  (cachedStoreIssuers c kv).2 <> Returned None.
Proof.
  unfold cachedStoreIssuers. rewrite cachedStoreIssuers_req_forwarded.
  destruct (AddIssuersIfNotExist _ _) as [s' [[err|]|]]; simpl; done.
Qed.

(** A key enters the cache only from a batch the store returned nil for. *)
Lemma cachedStoreIssuers_cached_after_success (c : IssuerCache S) (kv : list KV) k :
  k ∈ cache_m (cachedStoreIssuers c kv).1 -> k ∉ cache_m c ->
  k ∈ K <$> forwarded c kv /\
  (AddIssuersIfNotExist (store_s c) (forwarded c kv)).2 = Returned None.
Proof.
  unfold cachedStoreIssuers. rewrite cachedStoreIssuers_req_forwarded.
  destruct (AddIssuersIfNotExist _ _) as [s' [[err|]|]]; simpl; try done.
  intros Hk Hn. apply cachedStoreIssuers_fill_elem in Hk as [Hk|Hk]; done.
Qed.

Lemma cachedStoreIssuers_run_bounded (c : IssuerCache S) acked batches :
  Z.of_nat (size (cache_m c)) <= maxCachedIssuerKeys ->
  Z.of_nat (size (cache_m (cachedStoreIssuers_run c acked batches).1)) <= maxCachedIssuerKeys.
Proof.
  revert c acked. induction batches as [|kv batches IH]; intros c acked Hc; simpl; [done|].
  by apply IH, cachedStoreIssuers_bounded.
Qed.

Lemma cachedStoreIssuers_run_acked (c : IssuerCache S) acked batches :
  cache_m c ⊆ acked ->
  cache_m (cachedStoreIssuers_run c acked batches).1 ⊆ (cachedStoreIssuers_run c acked batches).2.
Proof.
  revert c acked. induction batches as [|kv batches IH]; intros c acked Hc; simpl; [done|].
  apply IH. intros k Hk.
  destruct (decide (k ∈ cache_m c)) as [Hin|Hout].
  - destruct (AddIssuersIfNotExist _ _) as [s' [[err|]|]]; set_solver.
  - destruct (cachedStoreIssuers_cached_after_success c kv k Hk Hout) as [Hreq Hok].
    destruct (AddIssuersIfNotExist _ _) as [s' [[err|]|]]; simpl in Hok; try done.
    apply elem_of_union. right. by apply elem_of_list_to_set.
Qed.

(** X24: for calls made one after the other, in every state the wrapper
    reaches from an empty cache the cache holds at most 2^20 keys; a call
    hands the store every record of the batch whose key is not in the cache,
    in order; and once the cache holds 2^20 keys it stays as it is while calls
    keep handing those records over. *)
Theorem cachedStoreIssuers_cache_bounded_writes_kept (s : S) batches kv :
  let c := (cachedStoreIssuers_run {| cache_m := ∅; store_s := s |} ∅ batches).1 in
  Z.of_nat (size (cache_m c)) <= 2 ^ 20 /\
  store_s (cachedStoreIssuers c kv).1 =
    (AddIssuersIfNotExist (store_s c) (filter (fun x => K x ∉ cache_m c) kv)).1 /\
  (Z.of_nat (size (cache_m c)) = 2 ^ 20 ->
   cache_m (cachedStoreIssuers c kv).1 = cache_m c).
Proof.
  intros c. rewrite <- maxCachedIssuerKeys_value. split; [|split].
  - apply cachedStoreIssuers_run_bounded. by vm_compute.
  - apply cachedStoreIssuers_store.
  - intros Hfull. apply cachedStoreIssuers_full. lia.
Qed.

(** X25: in every state the wrapper reaches from an empty cache, each cached
    key belongs to a batch for which the store returned nil; and a call in
    which the store fails caches nothing, so the same batch handed again is
    forwarded again in full. *)
Theorem cachedStoreIssuers_caches_after_success_only (s : S) batches :
  let r := cachedStoreIssuers_run {| cache_m := ∅; store_s := s |} ∅ batches in
  cache_m r.1 ⊆ r.2 /\
  (forall c kv,
     (AddIssuersIfNotExist (store_s c) (forwarded c kv)).2 <> Returned None ->
     (cachedStoreIssuers c kv).2 <> Returned None /\
     cache_m (cachedStoreIssuers c kv).1 = cache_m c /\
     forwarded (cachedStoreIssuers c kv).1 kv = forwarded c kv).
Proof.
  intros r. split.
  - apply cachedStoreIssuers_run_acked. done.
  - intros c kv Hfail.
    destruct (cachedStoreIssuers_failure c kv Hfail) as [Hcache Hout].
    split; [done|]. split; [done|]. unfold forwarded. by rewrite Hcache.
Qed.

End CachingWrapper.

(** * Properties of [AddIssuerChain] *)

Section IssuerChain.
Import Storage.

Variable Sum256 : string -> string.

Lemma hex_byte_roundtrip (v : ascii) :
  let b := Z.of_N (N_of_ascii v) in
  exists hi lo,
    fromHexChar (hexdigit (Z.shiftr b 4)) = Some hi /\
    fromHexChar (hexdigit (Z.land b 15)) = Some lo /\
    ascii_of_N (Z.to_N (Z.lor (Z.shiftl hi 4) lo)) = v.
Proof.
  destruct v as [[] [] [] [] [] [] [] []];
    vm_compute; eexists _, _; repeat split.
Qed.

Lemma hex_byte_lower (v : ascii) :
  let b := Z.of_N (N_of_ascii v) in
  is_lower_hex (hexdigit (Z.shiftr b 4)) = true /\
  is_lower_hex (hexdigit (Z.land b 15)) = true.
Proof. destruct v as [[] [] [] [] [] [] [] []]; vm_compute; done. Qed.

Lemma DecodeString_EncodeToString (s : string) :
  DecodeString (EncodeToString s) = Some s.
Proof.
  induction s as [|v s IH]; [done|].
  destruct (hex_byte_roundtrip v) as (hi & lo & Hhi & Hlo & Hv).
  cbn [EncodeToString DecodeString]. cbv zeta in Hhi, Hlo.
  by rewrite Hhi, Hlo, IH, Hv.
Qed.

Lemma EncodeToString_lower (s : string) :
  all_chars is_lower_hex (EncodeToString s) = true.
Proof.
  induction s as [|v s IH]; [done|].
  destruct (hex_byte_lower v) as [Hhi Hlo].
  cbn [EncodeToString all_chars]. cbv zeta in Hhi, Hlo.
  by rewrite Hhi, Hlo, IH.
Qed.

Lemma EncodeToString_length (s : string) :
  String.length (EncodeToString s) = (2 * String.length s)%nat.
Proof. induction s as [|v s IH]; [done|]. cbn [EncodeToString String.length]. lia. Qed.

(** The loop of [AddIssuerChain] appends one record per certificate. *)
Lemma AddIssuerChain_kvs_map (chain : list Certificate_x509) (kvs : list KV) :
  AddIssuerChain_kvs Sum256 chain kvs = kvs ++ (issuer_record Sum256 <$> chain).
Proof.
  revert kvs. induction chain as [|c chain IH]; intros kvs; simpl.
  - by rewrite app_nil_r.
  - rewrite IH. by rewrite <- app_assoc.
Qed.

(** C9: AddIssuerChain hands the issuer store one batch, with one record per
    certificate in chain order; the record's value is the certificate's DER
    and its key the lowercase hex encoding of the SHA-256 of that DER. *)
Theorem AddIssuerChain_batch (chain : list Certificate_x509) :
  exists kvs,
    (AddIssuerChain Sum256 recording_store [] chain).1 = [kvs] /\
    (forall (IS : Type) (storeIssuers : IS -> list KV -> IS * Outcome) st,
       (AddIssuerChain Sum256 storeIssuers st chain).1 = (storeIssuers st kvs).1) /\
    length kvs = length chain /\
    forall i c, chain !! i = Some c ->
      exists kv, kvs !! i = Some kv /\ V kv = Raw c /\
        K kv = EncodeToString (Sum256 (Raw c)) /\
        DecodeString (K kv) = Some (Sum256 (Raw c)) /\
        all_chars is_lower_hex (K kv) = true /\
        String.length (K kv) = (2 * String.length (Sum256 (Raw c)))%nat.
Proof.
  exists (issuer_record Sum256 <$> chain).
  split; [|split; [|split]].
  - unfold AddIssuerChain. by rewrite AddIssuerChain_kvs_map.
  - intros IS storeIssuers st. unfold AddIssuerChain.
    rewrite AddIssuerChain_kvs_map. simpl.
    by destruct (storeIssuers _ _) as [st' [[err|]|]].
  - by rewrite length_fmap.
  - intros i c Hc. exists (issuer_record Sum256 c).
    split; [by rewrite list_lookup_fmap, Hc|].
    simpl. split; [done|]. split; [done|].
    split; [apply DecodeString_EncodeToString|].
    split; [apply EncodeToString_lower|apply EncodeToString_length].
Qed.

End IssuerChain.

(** Behind the wrapper, the record the S3 store dropped is cached all the
    same: the batch handed again forwards nothing, and the object is still
    missing. *)
Lemma cachedStoreIssuers_over_aws_skips_dropped_record :
  let store : Storage.IssuerStorage Storage.aws.IssuersStorage :=
    Storage.aws.AddIssuersIfNotExist Examples.join_slash Examples.quote_plain
      Examples.no_fault in
  let r := Storage.cachedStoreIssuers
             {| Storage.cache_m := ∅; Storage.store_s := Examples.bucket_with_a |}
             Examples.records_a_b in
  r.2 = Storage.Returned None /\
  Storage.forwarded r.1 Examples.records_a_b = [] /\
  Storage.aws.s3Client (Storage.store_s r.1) !! "issuers/b" = None.
Proof. vm_compute. done. Qed.

(** X24, run: after one batch on the in-memory store the cache is within
    bounds and a second batch reaches the store filtered by the cache. *)
Lemma cachedStoreIssuers_cache_bounded_writes_kept_witness :
  let c := (Storage.cachedStoreIssuers_run
              {| Storage.cache_m := ∅; Storage.store_s := (∅ : gmap string string) |}
              ∅ [Examples.records_a_b]).1 in
  Z.of_nat (size (Storage.cache_m c)) <= 2 ^ 20 /\
  Storage.store_s (Storage.cachedStoreIssuers c Examples.records_a_b).1 =
    (Storage.AddIssuersIfNotExist (Storage.store_s c)
       (filter (fun x => Storage.K x ∉ Storage.cache_m c) Examples.records_a_b)).1.
Proof.
  intros c.
  destruct (cachedStoreIssuers_cache_bounded_writes_kept
              (∅ : gmap string string) [Examples.records_a_b] Examples.records_a_b)
    as (Hsize & Hstore & _).
  split; [exact Hsize|exact Hstore].
Defined.

(** X25, run: after one batch on the in-memory store every cached key was
    acknowledged. *)
Lemma cachedStoreIssuers_caches_after_success_only_witness :
  let r := Storage.cachedStoreIssuers_run
             {| Storage.cache_m := ∅; Storage.store_s := (∅ : gmap string string) |}
             ∅ [Examples.records_a_b] in
  Storage.cache_m r.1 ⊆ r.2.
Proof.
  intros r.
  destruct (cachedStoreIssuers_caches_after_success_only
              (∅ : gmap string string) [Examples.records_a_b]) as [Hacked _].
  exact Hacked.
Defined.

(** C9, run: a chain of two certificates gives a batch of two records. *)
Lemma AddIssuerChain_batch_witness :
  exists kvs,
    (Storage.AddIssuerChain Examples.sum_id Storage.recording_store []
       [ {| Storage.Raw := "AZ" |}; {| Storage.Raw := "root" |} ]).1 = [kvs] /\
    length kvs = 2%nat.
Proof.
  destruct (AddIssuerChain_batch Examples.sum_id
              [ {| Storage.Raw := "AZ" |}; {| Storage.Raw := "root" |} ])
    as (kvs & Hbatch & _ & Hlen & _).
  exists kvs. split; [exact Hbatch|exact Hlen].
Defined.

(** * Further properties of [config.go] *)

Section ConfigParsing.
Import Config.

Variable PEMCertPool : Type.
Variable AppendCertsFromPEMFile : string -> Result PEMCertPool.
Variable Atoi : string -> Result Z.
Variable Sprint_key : PublicKey -> string.

Local Abbreviation parseOID := (Config.parseOID Atoi).
Local Abbreviation parseOIDs_loop := (Config.parseOIDs_loop Atoi).
Local Abbreviation parseOIDs := (Config.parseOIDs Atoi).
Local Abbreviation newCertValidationOpts :=
  (Config.newCertValidationOpts PEMCertPool AppendCertsFromPEMFile Atoi).
Local Abbreviation New :=
  (Config.New PEMCertPool AppendCertsFromPEMFile Atoi Sprint_key).

Lemma parseOID_values (val : string -> Z) bits oid :
  (forall n, n ∈ bits -> Atoi n = Ok (val n)) ->
  parseOID bits oid = Ok (oid ++ (val <$> bits)).
Proof.
  revert oid. induction bits as [|n bits IH]; intros oid Hall; simpl.
  - by rewrite app_nil_r.
  - rewrite (Hall n) by (apply elem_of_cons; by left).
    rewrite IH by (intros m Hm; apply Hall, elem_of_cons; by right).
    by rewrite <- app_assoc.
Qed.

Lemma parseOIDs_loop_values (val : string -> Z) oids ret :
  (forall s n, s ∈ oids -> n ∈ Split s dot -> Atoi n = Ok (val n)) ->
  parseOIDs_loop oids ret = Ok (ret ++ ((fun s => val <$> Split s dot) <$> oids)).
Proof.
  revert ret. induction oids as [|s oids IH]; intros ret Hall; simpl.
  - by rewrite app_nil_r.
  - rewrite (parseOID_values val) by (intros n Hn; apply (Hall s); [apply elem_of_cons; by left|done]).
    rewrite IH by (intros t n Ht; apply Hall, elem_of_cons; by right).
    by rewrite <- app_assoc.
Qed.

(** X1: when Atoi accepts every dot-separated component, parseOIDs returns
    one OID per input string, in order, made of the components' values in
    order. *)
Theorem parseOIDs_wellformed (val : string -> Z) (oids : list string) :
  (forall s n, s ∈ oids -> n ∈ Split s dot -> Atoi n = Ok (val n)) ->
  parseOIDs oids = Ok ((fun s => val <$> Split s dot) <$> oids).
Proof. intros Hall. unfold Config.parseOIDs. by rewrite (parseOIDs_loop_values val). Qed.

Lemma parseOID_Err_iff bits oid :
  is_Err (parseOID bits oid) = true <-> exists n, n ∈ bits /\ is_Err (Atoi n) = true.
Proof.
  revert oid. induction bits as [|n bits IH]; intros oid; simpl.
  - split; [done|]. intros (n & Hn & _). by apply elem_of_nil in Hn.
  - destruct (Atoi n) as [p|e] eqn:Hn.
    + rewrite IH. split.
      * intros (m & Hm & He). exists m. split; [apply elem_of_cons; by right|done].
      * intros (m & Hm & He). apply elem_of_cons in Hm as [->|Hm].
        -- rewrite Hn in He. done.
        -- by exists m.
    + split; [|done]. intros _. exists n. split; [apply elem_of_cons; by left|].
      by rewrite Hn.
Qed.

Lemma parseOIDs_loop_Err_iff oids ret :
  is_Err (parseOIDs_loop oids ret) = true <->
  exists s n, s ∈ oids /\ n ∈ Split s dot /\ is_Err (Atoi n) = true.
Proof.
  revert ret. induction oids as [|s oids IH]; intros ret; simpl.
  - split; [done|]. intros (s & n & Hs & _). by apply elem_of_nil in Hs.
  - destruct (parseOID (Split s dot) []) as [oid|e] eqn:Hs.
    + rewrite IH. split.
      * intros (t & n & Ht & Hn). exists t, n. split; [apply elem_of_cons; by right|done].
      * intros (t & n & Ht & Hn & He). apply elem_of_cons in Ht as [->|Ht].
        -- assert (is_Err (parseOID (Split s dot) []) = true) as Hbad
             by (apply parseOID_Err_iff; by exists n).
           by rewrite Hs in Hbad.
        -- by exists t, n.
    + split; [|done]. intros _.
      assert (is_Err (parseOID (Split s dot) []) = true) as Hbad by (by rewrite Hs).
      apply parseOID_Err_iff in Hbad as (n & Hn & He).
      exists s, n. split; [apply elem_of_cons; by left|done].
Qed.

(** X2: parseOIDs fails exactly when Atoi rejects some dot-separated
    component of some entry; a non-empty RejectExtensions with such a
    component makes newCertValidationOpts fail. *)
Theorem parseOIDs_fails_on_bad_component (oids : list string) :
  (is_Err (parseOIDs oids) = true <->
   exists s n, s ∈ oids /\ n ∈ Split s dot /\ is_Err (Atoi n) = true) /\
  (forall cfg,
     RejectExtensions cfg <> EmptyString ->
     oids = Split (RejectExtensions cfg) comma ->
     is_Err (parseOIDs oids) = true ->
     is_Err (newCertValidationOpts cfg) = true).
Proof.
  split; [apply parseOIDs_loop_Err_iff|].
  intros cfg Hne -> Hbad. unfold Config.newCertValidationOpts.
  case_bool_decide; [done|].
  destruct (AppendCertsFromPEMFile _); [|done].
  destruct (_ && _); [done|].
  destruct (match NotAfterStart cfg with Some _ => _ | None => _ end); [done|].
  destruct (extKeyUsages_loop _ _); [|done].
  rewrite bool_decide_eq_false_2 by done.
  by destruct (Config.parseOIDs _ _).
Qed.

Lemma newCertValidationOpts_inversion cfg opts :
  newCertValidationOpts cfg = Ok opts ->
  RootsPemFile cfg <> EmptyString /\
  AppendCertsFromPEMFile (RootsPemFile cfg) = Ok (trustedRoots opts) /\
  ~ rejects_everything cfg /\ ~ limit_before_start cfg /\
  rejectExpired opts = RejectExpired cfg /\
  rejectUnexpired opts = RejectUnexpired cfg /\
  notAfterStart opts = NotAfterStart cfg /\
  notAfterLimit opts = NotAfterLimit cfg /\
  extKeyUsages_loop (lExtKeyUsages cfg) [] = Ok (extKeyUsages opts) /\
  (if bool_decide (RejectExtensions cfg = EmptyString) then rejectExtIds opts = []
   else parseOIDs (Split (RejectExtensions cfg) comma) = Ok (rejectExtIds opts)).
Proof.
  unfold Config.newCertValidationOpts.
  case_bool_decide as Hlen; [done|].
  destruct (AppendCertsFromPEMFile _) as [roots|]; [|done].
  destruct (RejectExpired cfg && RejectUnexpired cfg) eqn:Hboth; [done|].
  destruct (match NotAfterStart cfg with Some _ => _ | None => _ end) eqn:Hwin; [done|].
  destruct (extKeyUsages_loop _ _) as [ekus|] eqn:Hloop; [|done].
  intros H.
  assert (RootsPemFile cfg <> EmptyString) as Hroots
    by (intros Heq; apply Hlen; by rewrite Heq).
  assert (~ rejects_everything cfg) as Hrej
    by (intros [H1 H2]; by rewrite H1, H2 in Hboth).
  assert (~ limit_before_start cfg) as Hlim
    by (intros (st & li & H1 & H2 & H3); by rewrite H1, H2, H3 in Hwin).
  case_bool_decide; [|destruct (Config.parseOIDs _ _) eqn:Hp; [|done]];
    simplify_eq/=; done.
Qed.

(** X3: options are only returned for a config that names a roots file, does
    not contradict itself, and whose lists parse; they carry the loaded roots,
    the two flags and the NotAfter window of the config unchanged. *)
Theorem newCertValidationOpts_Ok_inv cfg opts :
  newCertValidationOpts cfg = Ok opts ->
  RootsPemFile cfg <> EmptyString /\
  AppendCertsFromPEMFile (RootsPemFile cfg) = Ok (trustedRoots opts) /\
  ~ rejects_everything cfg /\ ~ limit_before_start cfg /\
  rejectExpired opts = RejectExpired cfg /\
  rejectUnexpired opts = RejectUnexpired cfg /\
  notAfterStart opts = NotAfterStart cfg /\
  notAfterLimit opts = NotAfterLimit cfg /\
  extKeyUsages_loop (lExtKeyUsages cfg) [] = Ok (extKeyUsages opts) /\
  (if bool_decide (RejectExtensions cfg = EmptyString) then rejectExtIds opts = []
   else parseOIDs (Split (RejectExtensions cfg) comma) = Ok (rejectExtIds opts)).
Proof. apply newCertValidationOpts_inversion. Qed.

Lemma extKeyUsages_loop_no_Any (l : list string) acc ekus :
  "Any" ∉ l -> extKeyUsages_loop l acc = Ok ekus ->
  exists new, ekus = acc ++ new /\
    Forall2 (fun kuStr ku => stringToKeyUsage !! kuStr = Some ku) l new.
Proof.
  revert acc. induction l as [|k l IH]; intros acc Hany; simpl.
  - intros [= <-]. exists []. by rewrite app_nil_r.
  - apply not_elem_of_cons in Hany as [Hk Hany].
    destruct (stringToKeyUsage !! k) as [ku|] eqn:Hku; [|done].
    case_bool_decide as HAny.
    { subst ku. exfalso. by apply Hk, eq_sym, stringToKeyUsage_Any_inv. }
    intros Hloop. apply IH in Hloop as (new & -> & Hall); [|done].
    exists (ku :: new). rewrite <- app_assoc. split; [done|]. by constructor.
Qed.

(** X4: when "Any" is not named, the allowlist of the returned options has
    one usage per name of ExtKeyUsages, in the order written and with
    repetitions kept, each being the table's usage for that name. *)
Theorem extKeyUsages_in_order cfg opts :
  "Any" ∉ lExtKeyUsages cfg ->
  newCertValidationOpts cfg = Ok opts ->
  Forall2 (fun kuStr ku => stringToKeyUsage !! kuStr = Some ku)
    (lExtKeyUsages cfg) (extKeyUsages opts).
Proof.
  intros Hany Hok.
  destruct (newCertValidationOpts_inversion cfg opts Hok)
    as (_ & _ & _ & _ & _ & _ & _ & _ & Hloop & _).
  by destruct (extKeyUsages_loop_no_Any _ _ _ Hany Hloop) as (new & -> & Hall).
Qed.

(** X5: New returns a validated config exactly when the origin is not empty,
    the signer is not nil and has an ECDSA public key, and the validation
    config is accepted; the result carries that origin, signer and options. *)
Theorem New_Ok_iff origin signer cfg v :
  New origin signer cfg = Ok v <->
  origin <> EmptyString /\
  exists sg opts,
    signer = Some sg /\ is_ecdsa (Public sg) = true /\
    newCertValidationOpts cfg = Ok opts /\
    v = {| Origin := origin; Signer_ := sg; CertValidationOpts_ := opts |}.
Proof.
  unfold Config.New. split.
  - case_bool_decide as Ho; [done|].
    destruct signer as [sg|]; [|done].
    destruct (Public sg) eqn:Hk; try done.
    destruct (Config.newCertValidationOpts _ _ _ _) as [opts|] eqn:Hopts; [|done].
    intros [= <-]. split; [done|]. exists sg, opts. by rewrite Hk.
  - intros (Ho & sg & opts & -> & Hk & Hopts & ->).
    rewrite bool_decide_eq_false_2 by done.
    destruct (Public sg); try discriminate. by rewrite Hopts.
Qed.

End ConfigParsing.

Ltac explicit_elem H :=
  repeat (apply elem_of_cons in H as [->|H]); [..|by apply elem_of_nil in H].

(** X1, run: two dotted OIDs. *)
Lemma parseOIDs_wellformed_witness :
  Config.parseOIDs Examples.atoi_decimal ["1.2.3.4"; "5.6.7.8"]
  = Ok [[1; 2; 3; 4]; [5; 6; 7; 8]].
Proof.
  rewrite (parseOIDs_wellformed Examples.atoi_decimal
             (fun n => match Examples.atoi_decimal n with Ok z => z | Err _ => 0 end)
             ["1.2.3.4"; "5.6.7.8"]); [reflexivity|].
  intros s n Hs Hn. explicit_elem Hs; vm_compute in Hn; explicit_elem Hn; reflexivity.
Defined.

(** X2, run: "1.2.3.4,one.banana" is refused. *)
Lemma parseOIDs_fails_on_bad_component_witness :
  is_Err (Config.newCertValidationOpts unit Examples.roots_ok Examples.atoi_decimal
            Examples.cfg_bad_extension) = true.
Proof.
  destruct (parseOIDs_fails_on_bad_component unit Examples.roots_ok
              Examples.atoi_decimal ["1.2.3.4"; "one.banana"]) as [Hiff Hcfg].
  apply Hcfg; [discriminate|reflexivity|].
  apply Hiff. exists "one.banana", "one".
  split; [|split]; [| |reflexivity]; apply list_elem_of_In; vm_compute; auto.
Defined.

(** X3, run: a full config. *)
Lemma newCertValidationOpts_Ok_inv_witness :
  exists opts,
    Config.newCertValidationOpts unit Examples.roots_ok Examples.atoi_decimal
      Examples.cfg_full = Ok opts /\
    Config.rejectExpired opts = true /\ Config.notAfterLimit opts = Some 200.
Proof.
  eexists. split; [reflexivity|].
  destruct (newCertValidationOpts_Ok_inv unit Examples.roots_ok Examples.atoi_decimal
              Examples.cfg_full _ eq_refl)
    as (_ & _ & _ & _ & Hexp & _ & _ & Hlimit & _).
  split; [exact Hexp|exact Hlimit].
Defined.

(** X4, run: "ServerAuth,ClientAuth,OCSPSigning". *)
Lemma extKeyUsages_in_order_witness :
  exists opts,
    Config.newCertValidationOpts unit Examples.roots_ok Examples.atoi_decimal
      Examples.cfg_full = Ok opts /\
    Forall2 (fun kuStr ku => Config.stringToKeyUsage !! kuStr = Some ku)
      ["ServerAuth"; "ClientAuth"; "OCSPSigning"] (Config.extKeyUsages opts).
Proof.
  eexists. split; [reflexivity|].
  apply (extKeyUsages_in_order unit Examples.roots_ok Examples.atoi_decimal
           Examples.cfg_full _); [|reflexivity].
  intros Hin. change (Config.lExtKeyUsages Examples.cfg_full)
    with ["ServerAuth"; "ClientAuth"; "OCSPSigning"] in Hin.
  repeat (apply elem_of_cons in Hin as [Hin|Hin]; [discriminate|]).
  by apply elem_of_nil in Hin.
Defined.

(** X5, run: a P-256 signer with a plain config. *)
Lemma New_Ok_iff_witness :
  exists v,
    Config.New unit Examples.roots_ok Examples.atoi_decimal Examples.sprint_key
      "example.com/log" (Some Examples.signer_P256) Examples.cfg_plain = Ok v /\
    Config.Origin v = "example.com/log".
Proof.
  eexists. split.
  - apply (New_Ok_iff unit Examples.roots_ok Examples.atoi_decimal Examples.sprint_key).
    split; [discriminate|]. eexists _, _. repeat split; reflexivity.
  - reflexivity.
Defined.

(** * Further properties of [storage/storage.go] *)

Section StorageErrors.
Import Storage.

Variable storeData : Entry -> IndexFuture.
Variable publishedCheckpoint : Z -> Result string.
Variable ReadEntryBundle : Z -> Z -> Result string.
Variable PartialTileSize : Z -> Z -> Z -> Z.
Variable ParseUint : string -> Result Z.
Variable ExtractTimestampFromBundle : string -> Z -> Result Z.

Local Abbreviation dedupeFuture :=
  (Storage.dedupeFuture publishedCheckpoint ReadEntryBundle PartialTileSize
     ParseUint ExtractTimestampFromBundle).
Local Abbreviation dedupeFuture_each :=
  (Storage.dedupeFuture_each publishedCheckpoint ReadEntryBundle PartialTileSize
     ParseUint ExtractTimestampFromBundle).
Local Abbreviation Add :=
  (Storage.Add storeData publishedCheckpoint ReadEntryBundle PartialTileSize
     ParseUint ExtractTimestampFromBundle).

#[local] Arguments SplitN : simpl never.
#[local] Arguments Z.div : simpl never.
#[local] Arguments Z.modulo : simpl never.

Ltac unfold_storage :=
  unfold Storage.Add, Storage.dedupeFuture, Storage.Await, Storage.timestamp,
    wrapping, bind, call, try, ret, fail, Load, AtomicAdd, Store, EntryBundleWidth in *.

Lemma errors_Is_wrapped prefix e target :
  errors_Is e target = true -> errors_Is (Errorf_w prefix e) target = true.
Proof. intros H. simpl. rewrite H. apply orb_true_r. Qed.

Lemma to_int64_small z : 0 <= z < 2 ^ 63 -> to_int64 z = z.
Proof.
  intros Hz. unfold to_int64.
  change (2 ^ 63) with 9223372036854775808 in *.
  change (2 ^ 64) with 18446744073709551616.
  rewrite Z.mod_small; lia.
Qed.

(** X6: an error of the future, or of the awaiter on either path, comes out
    of Add wrapped so that errors.Is still finds whatever it matched; a
    duplicate over the limit comes out as an error matching ErrPushback. *)
Theorem Add_errors_stay_detectable cts entry st :
  (forall e, storeData entry = Err e ->
     exists e', (Add cts entry st).1 = Err e' /\
       forall target, errors_Is e target = true -> errors_Is e' target = true) /\
  (forall idx e, storeData entry = Ok idx ->
     publishedCheckpoint (Index idx) = Err e ->
     (IsDup idx = true ->
      dedupeFutureInFlight st <= to_int64 (maxDedupeFutureInFlight cts)) ->
     (IsDup idx = false -> enableAwaiter cts = true) ->
     exists e', (Add cts entry st).1 = Err e' /\
       forall target, errors_Is e target = true -> errors_Is e' target = true) /\
  (forall idx, storeData entry = Ok idx -> IsDup idx = true ->
     dedupeFutureInFlight st > to_int64 (maxDedupeFutureInFlight cts) ->
     exists e', (Add cts entry st).1 = Err e' /\ errors_Is e' ErrPushback = true).
Proof.
  split; [|split].
  - intros e Hf. unfold_storage. rewrite Hf. simpl.
    eexists; split; [done|]. intros target. apply errors_Is_wrapped.
  - intros idx e Hf Hcp Hdup Hnew. unfold_storage. rewrite Hf. simpl.
    destruct (IsDup idx) eqn:Hd.
    + specialize (Hdup eq_refl). simpl.
      destruct (Z.gtb_spec (dedupeFutureInFlight st)
                  (to_int64 (maxDedupeFutureInFlight cts))); [lia|].
      simpl. rewrite Hcp. simpl.
      eexists; split; [done|]. intros target. apply errors_Is_wrapped.
    + rewrite (Hnew eq_refl). simpl. rewrite Hcp. simpl.
      eexists; split; [done|]. intros target. apply errors_Is_wrapped.
  - intros idx Hf Hdup Hover. unfold_storage. rewrite Hf. simpl. rewrite Hdup. simpl.
    destruct (Z.gtb_spec (dedupeFutureInFlight st)
                (to_int64 (maxDedupeFutureInFlight cts))); [|lia].
    simpl. by eexists.
Qed.

Lemma dedupeFuture_counter cts f st :
  dedupeFutureInFlight (dedupeFuture cts f st).2 =
    if dedupeFutureInFlight st >? to_int64 (maxDedupeFutureInFlight cts)
    then dedupeFutureInFlight st
    else to_int64 (dedupeFutureInFlight st + 1).
Proof.
  unfold_storage. destruct (_ >? _); [done|]. simpl.
  destruct f as [idx|]; [|done]. simpl.
  destruct (publishedCheckpoint (Index idx)) as [cp|]; [|done]. simpl.
  case_bool_decide; [done|]. simpl.
  destruct (ParseUint _) as [ckptSize|]; [|done]. simpl.
  destruct (ReadEntryBundle _ _) as [eb|]; [|done]. simpl.
  destruct (ExtractTimestampFromBundle _ _) as [t'|]; done.
Qed.

(** X7: Add moves the counter of duplicates by one exactly when the future
    resolves as a duplicate within the limit, whether the recovery then
    succeeds or fails, and leaves it alone otherwise; nothing gives a slot
    back but the reset job. *)
Theorem Add_counts_admitted_duplicates cts entry st :
  0 <= maxDedupeFutureInFlight cts < 2 ^ 63 - 1 ->
  0 <= dedupeFutureInFlight st ->
  dedupeFutureInFlight (Add cts entry st).2 =
    match storeData entry with
    | Ok idx =>
        if IsDup idx && (dedupeFutureInFlight st <=? maxDedupeFutureInFlight cts)
        then dedupeFutureInFlight st + 1
        else dedupeFutureInFlight st
    | Err _ => dedupeFutureInFlight st
    end.
Proof.
  intros Hmax Hc.
  destruct (storeData entry) as [idx|e] eqn:Hf.
  - destruct (IsDup idx) eqn:Hdup.
    + unfold Storage.Add, bind, call, try, ret. rewrite Hf. simpl. rewrite Hdup.
      rewrite dedupeFuture_counter. simpl.
      rewrite to_int64_small by lia.
      destruct (Z.gtb_spec (dedupeFutureInFlight st) (maxDedupeFutureInFlight cts)),
               (Z.leb_spec (dedupeFutureInFlight st) (maxDedupeFutureInFlight cts));
        try lia; try done.
      apply to_int64_small. lia.
    + unfold_storage. rewrite Hf. simpl. rewrite Hdup. simpl.
      destruct (enableAwaiter cts); [|done]. simpl.
      destruct (publishedCheckpoint (Index idx)); done.
  - unfold_storage. by rewrite Hf.
Qed.

Lemma dedupeFuture_admitted_not_pushback cts f st :
  dedupeFutureInFlight st <= to_int64 (maxDedupeFutureInFlight cts) ->
  (dedupeFuture cts f st).1 <> Err pushback_error.
Proof.
  intros Hlim. unfold pushback_error. unfold_storage.
  destruct (Z.gtb_spec (dedupeFutureInFlight st)
              (to_int64 (maxDedupeFutureInFlight cts))); [lia|].
  simpl. destruct f as [idx|]; [|(simpl; intros Hdiff; inversion Hdiff)]. simpl.
  destruct (publishedCheckpoint (Index idx)) as [cp|]; [|(simpl; intros Hdiff; inversion Hdiff)]. simpl.
  case_bool_decide; [(simpl; intros Hdiff; inversion Hdiff)|]. simpl.
  destruct (ParseUint _) as [ckptSize|]; [|(simpl; intros Hdiff; inversion Hdiff)]. simpl.
  destruct (ReadEntryBundle _ _) as [eb|e];
    [|simpl; destruct (errors_Is e ErrNotExist); intros Hdiff; inversion Hdiff]. simpl.
  destruct (ExtractTimestampFromBundle _ _) as [t'|]; (simpl; intros Hdiff; inversion Hdiff).
Qed.

Lemma dedupeFuture_each_from cts fs st :
  0 <= maxDedupeFutureInFlight cts < 2 ^ 63 - 1 ->
  0 <= dedupeFutureInFlight st ->
  length (dedupeFuture_each cts fs st).1 = length fs /\
  (forall k res, (dedupeFuture_each cts fs st).1 !! k = Some res ->
     (res = Err pushback_error <->
      maxDedupeFutureInFlight cts < dedupeFutureInFlight st + Z.of_nat k)) /\
  dedupeFutureInFlight (dedupeFuture_each cts fs st).2 =
    Z.max (dedupeFutureInFlight st)
      (Z.min (dedupeFutureInFlight st + Z.of_nat (length fs))
         (maxDedupeFutureInFlight cts + 1)).
Proof.
  intros Hmax. revert st. induction fs as [|f fs IH]; intros st Hc.
  - simpl. split; [done|]. split; [by intros k res H|]. lia.
  - cbn [Storage.dedupeFuture_each fst snd length].
    pose proof (dedupeFuture_counter cts f st) as Hcount.
    rewrite to_int64_small in Hcount by lia.
    destruct (Z.gtb_spec (dedupeFutureInFlight st) (maxDedupeFutureInFlight cts)) as [Hover|Hin].
    + assert (dedupeFuture cts f st = (Err pushback_error, st)) as Hpb.
      { apply dedupeFuture_pushback. rewrite to_int64_small; lia. }
      rewrite Hpb. cbn [fst snd].
      destruct (IH st Hc) as (Hlen & Hres & Hfin).
      split; [by rewrite Hlen|]. split; [|rewrite Hfin; lia].
      intros [|k] res Hk; simpl in Hk.
      * injection Hk as <-. split; [lia|done].
      * rewrite (Hres k res Hk). lia.
    + rewrite to_int64_small in Hcount by lia.
      destruct (IH (dedupeFuture cts f st).2) as (Hlen & Hres & Hfin); [lia|].
      split; [by rewrite Hlen|]. split; [|rewrite Hfin, Hcount; lia].
      intros [|k] res Hk; simpl in Hk.
      * injection Hk as <-. split; [|lia].
        intros Hpb. exfalso.
        eapply (dedupeFuture_admitted_not_pushback cts f st); [|exact Hpb].
        rewrite to_int64_small; lia.
      * rewrite (Hres k res Hk), Hcount. lia.
Qed.

(** X8: on a storage fresh from NewCTStorage, of recoveries made in a row
    before the reset job ticks, the first limit + 1 are admitted and every
    later one is pushed back; the counter ends at the smaller of their number
    and limit + 1. *)
Theorem NewCTStorage_admits_limit_plus_one opts (fs : list IndexFuture) :
  0 <= MaxDedupeInFlight opts < 2 ^ 63 - 1 ->
  let r := dedupeFuture_each (NewCTStorage opts).1 fs (NewCTStorage opts).2 in
  length r.1 = length fs /\
  (forall k res, r.1 !! k = Some res ->
     (res = Err pushback_error <-> MaxDedupeInFlight opts < Z.of_nat k)) /\
  dedupeFutureInFlight r.2 =
    Z.min (Z.of_nat (length fs)) (MaxDedupeInFlight opts + 1).
Proof.
  intros Hmax r.
  destruct (dedupeFuture_each_from (NewCTStorage opts).1 fs (NewCTStorage opts).2)
    as (Hlen & Hres & Hfin); [done|done|].
  split; [done|]. split; [exact Hres|]. subst r. rewrite Hfin. simpl. lia.
Qed.

End StorageErrors.

Section StorageCalls.
Import Storage.

Variable publishedCheckpoint : Z -> Result string.
Variable ReadEntryBundle : Z -> Z -> Result string.
Variable PartialTileSize : Z -> Z -> Z -> Z.
Variable ParseUint : string -> Result Z.
Variable ExtractTimestampFromBundle : string -> Z -> Result Z.

Local Abbreviation dedupeFuture :=
  (Storage.dedupeFuture publishedCheckpoint ReadEntryBundle PartialTileSize
     ParseUint ExtractTimestampFromBundle).

#[local] Arguments SplitN : simpl never.
#[local] Arguments Z.div : simpl never.
#[local] Arguments Z.modulo : simpl never.

Ltac unfold_recovery :=
  unfold Storage.dedupeFuture, Storage.Await, Storage.timestamp,
    wrapping, bind, call, try, ret, fail, Load, AtomicAdd, Store, EntryBundleWidth in *.

(** X9: one recovery makes at most three calls, in this order: Await on the
    future, one read of bundle index div 256 at the width the checkpoint size
    gives, one timestamp extraction at position index mod 256, which lies in
    0..255; it never sequences an entry and never reads a second bundle. *)
Theorem dedupeFuture_call_discipline cts f st :
  exists tail,
    calls (dedupeFuture cts f st).2 = calls st ++ tail /\
    (tail = [] \/ tail = [CallAwait f] \/
     exists idx size,
       f = Ok idx /\ 0 <= Index idx mod 256 < 256 /\
       let read := CallReadEntryBundle (Index idx / 256)
                     (PartialTileSize 0 (Index idx / 256) size) in
       (tail = [CallAwait f; read] \/
        tail = [CallAwait f; read; CallTimestamp (Index idx mod 256)])).
Proof.
  unfold_recovery. destruct (_ >? _).
  { exists []. split; [by rewrite app_nil_r|by left]. }
  simpl. destruct f as [idx|e]; simpl.
  2:{ exists [CallAwait (Err e)]. split; [done|]. right; by left. }
  destruct (publishedCheckpoint (Index idx)) as [cp|]; simpl.
  2:{ exists [CallAwait (Ok idx)]. split; [done|]. right; by left. }
  case_bool_decide; simpl.
  { exists [CallAwait (Ok idx)]. split; [done|]. right; by left. }
  destruct (ParseUint _) as [size|]; simpl.
  2:{ exists [CallAwait (Ok idx)]. split; [done|]. right; by left. }
  assert (0 <= Index idx mod 256 < 256) as Hmod by (apply Z.mod_pos_bound; lia).
  destruct (ReadEntryBundle _ _) as [eb|]; simpl.
  2:{ eexists. split; [by rewrite <- app_assoc|].
      right; right. exists idx, size. split; [done|]. split; [done|]. by left. }
  destruct (ExtractTimestampFromBundle _ _) as [t|]; simpl;
    (eexists; split; [by rewrite <- !app_assoc|];
     right; right; exists idx, size; split; [done|]; split; [done|]; by right).
Qed.

Lemma Cut_newline_free (s : string) :
  newline_free s = true -> Cut s newline = None.
Proof.
  unfold newline_free. induction s as [|ch s IH]; simpl; [done|].
  intros H. apply andb_true_iff in H as [Hc Hs].
  case_bool_decide; [done|]. by rewrite IH.
Qed.

Lemma Cut_first_newline (line rest : string) :
  newline_free line = true ->
  Cut (line +:+ String newline rest) newline = Some (line, rest).
Proof.
  unfold newline_free. induction line as [|ch line IH]; simpl.
  - done.
  - intros H. apply andb_true_iff in H as [Hc Hs].
    case_bool_decide; [done|]. by rewrite IH.
Qed.

Lemma SplitN_step (s : string) (sep : ascii) (n : nat) :
  SplitN s sep (S (S n)) =
    match Cut s sep with
    | None => [s]
    | Some (before, after) => before :: SplitN after sep (S n)
    end.
Proof. reflexivity. Qed.

Lemma SplitN_three_lines (origin size rest : string) :
  newline_free origin = true -> newline_free size = true ->
  SplitN (origin +:+ String newline (size +:+ String newline rest)) newline 3
  = [origin; size; rest].
Proof.
  intros Ho Hs.
  rewrite (SplitN_step _ newline 1), (Cut_first_newline origin _ Ho).
  by rewrite (SplitN_step _ newline 0), (Cut_first_newline size _ Hs).
Qed.

(** X10: an admitted recovery takes the log size from the second line of
    the checkpoint and nothing after it: a checkpoint without line feed is
    refused as having no size before any bundle is read; otherwise a size line
    that does not parse is refused likewise, and one that parses decides the
    width at which the bundle is read. *)
Theorem dedupeFuture_size_is_second_line cts idx cp st :
  dedupeFutureInFlight st <= to_int64 (maxDedupeFutureInFlight cts) ->
  publishedCheckpoint (Index idx) = Ok cp ->
  (newline_free cp = true ->
   (dedupeFuture cts (Ok idx) st).1 = Err (errors_New "invalid checkpoint - no size") /\
   calls (dedupeFuture cts (Ok idx) st).2 = calls st ++ [CallAwait (Ok idx)]) /\
  (forall origin size rest,
     cp = origin +:+ String newline (size +:+ String newline rest) ->
     newline_free origin = true -> newline_free size = true ->
     match ParseUint size with
     | Err e =>
         (dedupeFuture cts (Ok idx) st).1 =
           Err (errors_New ("invalid checkpoint - can't extract size: " +:+ Error e)) /\
         calls (dedupeFuture cts (Ok idx) st).2 = calls st ++ [CallAwait (Ok idx)]
     | Ok ckptSize =>
         exists tail,
           calls (dedupeFuture cts (Ok idx) st).2 =
             calls st ++ CallAwait (Ok idx)
               :: CallReadEntryBundle (Index idx / 256)
                    (PartialTileSize 0 (Index idx / 256) ckptSize) :: tail
     end).
Proof.
  intros Hlim Hcp. split.
  - intros Hfree. unfold_recovery.
    destruct (Z.gtb_spec (dedupeFutureInFlight st)
                (to_int64 (maxDedupeFutureInFlight cts))); [lia|].
    simpl. rewrite Hcp. simpl.
    assert (SplitN cp newline 3 = [cp]) as ->
      by (by rewrite (SplitN_step _ newline 1), Cut_newline_free).
    done.
  - intros origin size rest -> Ho Hs. unfold_recovery.
    destruct (Z.gtb_spec (dedupeFutureInFlight st)
                (to_int64 (maxDedupeFutureInFlight cts))); [lia|].
    simpl. rewrite Hcp. simpl.
    rewrite (SplitN_three_lines origin size rest Ho Hs). simpl.
    destruct (ParseUint size) as [ckptSize|e]; simpl; [|done].
    destruct (ReadEntryBundle _ _) as [eb|]; simpl.
    2:{ eexists. by rewrite <- app_assoc. }
    destruct (ExtractTimestampFromBundle _ _) as [t|]; simpl;
      eexists; by rewrite <- !app_assoc.
Qed.

End StorageCalls.

(** X6, run: a pushback of the appender is still a pushback after Add. *)
Lemma Add_errors_stay_detectable_witness :
  exists e',
    (Storage.Add Examples.store_pushback Examples.checkpoint_301 Examples.read_bundle
       Examples.partial_size Examples.parse_301 Examples.extract_ts
       Examples.cts_default (Examples.entry_at 5) Examples.st_fresh).1 = Err e' /\
    errors_Is e' Storage.ErrPushback = true.
Proof.
  destruct (Add_errors_stay_detectable Examples.store_pushback Examples.checkpoint_301
              Examples.read_bundle Examples.partial_size Examples.parse_301
              Examples.extract_ts Examples.cts_default (Examples.entry_at 5)
              Examples.st_fresh) as [Hfuture _].
  destruct (Hfuture Storage.ErrPushback eq_refl) as (e' & He' & Hdetect).
  exists e'. split; [exact He'|]. apply Hdetect. reflexivity.
Defined.

(** X7, run: a duplicate whose recovery fails on a cancelled wait still
    takes a slot. *)
Lemma Add_counts_admitted_duplicates_witness :
  Storage.dedupeFutureInFlight
    (Storage.Add Examples.store_dup Examples.checkpoint_cancelled Examples.read_bundle
       Examples.partial_size Examples.parse_301 Examples.extract_ts
       Examples.cts_default (Examples.entry_at 5) Examples.st_fresh).2 = 1.
Proof.
  rewrite (Add_counts_admitted_duplicates Examples.store_dup Examples.checkpoint_cancelled
             Examples.read_bundle Examples.partial_size Examples.parse_301
             Examples.extract_ts Examples.cts_default (Examples.entry_at 5)
             Examples.st_fresh); [reflexivity| |].
  - split; [|reflexivity]. intros Hgt. discriminate Hgt.
  - intros Hgt. discriminate Hgt.
Defined.

(** X8, run: with the limit at 2, of five recoveries the fourth is pushed
    back and the counter ends at 3. *)
Lemma NewCTStorage_admits_limit_plus_one_witness :
  let r := Storage.dedupeFuture_each Examples.checkpoint_301 Examples.read_bundle
             Examples.partial_size Examples.parse_301 Examples.extract_ts
             (Storage.NewCTStorage Examples.opts_limit_2).1
             (replicate 5 Examples.dup_300)
             (Storage.NewCTStorage Examples.opts_limit_2).2 in
  Storage.dedupeFutureInFlight r.2 = 3 /\
  (forall res, r.1 !! 3%nat = Some res -> res = Err Storage.pushback_error).
Proof.
  intros r.
  destruct (NewCTStorage_admits_limit_plus_one Examples.checkpoint_301
              Examples.read_bundle Examples.partial_size Examples.parse_301
              Examples.extract_ts Examples.opts_limit_2 (replicate 5 Examples.dup_300))
    as (_ & Hres & Hfin).
  - split; [|reflexivity]. intros Hgt. discriminate Hgt.
  - split; [exact Hfin|]. intros res Hk. apply (Hres 3%nat res Hk). reflexivity.
Defined.

(** X10, run: a checkpoint without line feed. *)
Lemma dedupeFuture_size_is_second_line_witness :
  (Storage.dedupeFuture Examples.checkpoint_no_size Examples.read_bundle
     Examples.partial_size Examples.parse_301 Examples.extract_ts
     Examples.cts_default Examples.dup_300 Examples.st_fresh).1
  = Err (errors_New "invalid checkpoint - no size").
Proof.
  destruct (dedupeFuture_size_is_second_line Examples.checkpoint_no_size
              Examples.read_bundle Examples.partial_size Examples.parse_301
              Examples.extract_ts Examples.cts_default
              {| Storage.Index := 300; Storage.IsDup := true |} "garbage"
              Examples.st_fresh) as [Hnone _].
  - intros Hgt. discriminate Hgt.
  - reflexivity.
  - destruct Hnone as [Herr _]; [reflexivity|exact Herr].
Defined.

(** * Further properties of the issuer stores *)

Section InMemoryStore.
Import Storage.

Lemma inmemory_AddIssuersIfNotExist_present (s : gmap string string) (kv : list KV) :
  (forall x, x ∈ kv -> is_Some (s !! K x)) ->
  inmemory.AddIssuersIfNotExist s kv = (s, Returned None).
Proof.
  induction kv as [|x kv IH]; intros Hall; simpl; [done|].
  destruct (Hall x) as [v ->]; [apply elem_of_cons; by left|].
  apply IH. intros y Hy. apply Hall, elem_of_cons. by right.
Qed.

Lemma inmemory_AddIssuersIfNotExist_dom (s : gmap string string) (kv : list KV) :
  dom (inmemory.AddIssuersIfNotExist s kv).1 = dom s ∪ list_to_set (K <$> kv).
Proof.
  revert s. induction kv as [|x kv IH]; intros s; simpl.
  - by rewrite (right_id_L ∅ (∪)).
  - destruct (s !! K x) as [old|] eqn:Hx; rewrite IH.
    + assert (dom s ∪ {[K x]} = dom s) as Hdom.
      { rewrite (comm_L (∪)). apply subseteq_union_1_L, singleton_subseteq_l.
        apply elem_of_dom. by eexists. }
      by rewrite (assoc_L (∪)), Hdom.
    + rewrite dom_insert_L. by rewrite (comm_L (∪) {[K x]}), (assoc_L (∪)).
Qed.

(** X11: after a batch the in-memory store holds exactly the keys it held
    before and the keys of the batch, and handing it the same batch again
    changes nothing and returns nil. *)
Theorem inmemory_AddIssuersIfNotExist_idempotent (s : gmap string string) (kv : list KV) :
  let s' := (inmemory.AddIssuersIfNotExist s kv).1 in
  dom s' = dom s ∪ list_to_set (K <$> kv) /\
  inmemory.AddIssuersIfNotExist s' kv = (s', Returned None).
Proof.
  intros s'. split; [apply inmemory_AddIssuersIfNotExist_dom|].
  apply inmemory_AddIssuersIfNotExist_present.
  intros x Hx. apply elem_of_dom. subst s'.
  rewrite inmemory_AddIssuersIfNotExist_dom. apply elem_of_union. right.
  apply elem_of_list_to_set, list_elem_of_fmap. by exists x.
Qed.

End InMemoryStore.

Section S3Store.
Import Storage.

Variable path_Join : string -> string -> string.
Variable Quote : string -> string.
Variable s3_fault : string -> option aws.S3Error.

Local Abbreviation name := (aws.keyToObjName path_Join).
Local Abbreviation loop := (aws.AddIssuersIfNotExist_loop path_Join Quote s3_fault).
Local Abbreviation AddIssuersIfNotExist_aws :=
  (aws.AddIssuersIfNotExist path_Join Quote s3_fault).

(** A batch the loop runs through entirely: the object names are distinct
    and new to the bucket, and the service does not fail on them. *)
Lemma aws_loop_clean s (objs : gmap string string) (kv : list KV) :
  NoDup (name s <$> (K <$> kv)) ->
  (forall x, x ∈ kv -> objs !! name s (K x) = None /\ s3_fault (name s (K x)) = None) ->
  (loop s objs kv).2 = Returned None /\
  (forall x, x ∈ kv -> (loop s objs kv).1 !! name s (K x) = Some (V x)) /\
  (forall n, n ∉ name s <$> (K <$> kv) -> (loop s objs kv).1 !! n = objs !! n).
Proof.
  revert objs. induction kv as [|x kv IH]; intros objs Hnd Hall.
  - simpl. split; [done|]. split; [|done]. intros x Hx. by apply elem_of_nil in Hx.
  - rewrite !fmap_cons in Hnd. apply NoDup_cons in Hnd as [Hx Hnd].
    destruct (Hall x) as [Hfresh Hfault]; [apply elem_of_cons; by left|].
    cbn [aws.AddIssuersIfNotExist_loop]. unfold aws.PutObject.
    rewrite Hfresh, Hfault.
    destruct (IH (<[name s (K x) := V x]> objs) Hnd) as (Hout & Hin & Hother).
    { intros y Hy. destruct (Hall y) as [Hy1 Hy2]; [apply elem_of_cons; by right|].
      split; [|done]. rewrite lookup_insert_ne; [done|].
      intros Heq. apply Hx. rewrite Heq.
      apply list_elem_of_fmap. exists (K y). split; [done|].
      apply list_elem_of_fmap. by exists y. }
    split; [done|]. split.
    + intros y Hy. apply elem_of_cons in Hy as [->|Hy]; [|by apply Hin].
      rewrite Hother by done. by rewrite lookup_insert_eq.
    + intros n Hn. rewrite !fmap_cons in Hn. apply not_elem_of_cons in Hn as [Hn1 Hn2].
      rewrite Hother by done. by rewrite lookup_insert_ne.
Qed.

Lemma aws_loop_app_clean s (objs : gmap string string) (pre rest : list KV) :
  NoDup (name s <$> (K <$> pre)) ->
  (forall x, x ∈ pre -> objs !! name s (K x) = None /\ s3_fault (name s (K x)) = None) ->
  loop s objs (pre ++ rest) = loop s (loop s objs pre).1 rest.
Proof.
  revert objs. induction pre as [|x pre IH]; intros objs Hnd Hall; [done|].
  rewrite !fmap_cons in Hnd. apply NoDup_cons in Hnd as [Hx Hnd].
  destruct (Hall x) as [Hfresh Hfault]; [apply elem_of_cons; by left|].
  cbn [app aws.AddIssuersIfNotExist_loop]. unfold aws.PutObject.
  rewrite Hfresh, Hfault. apply IH; [done|].
  intros y Hy. destruct (Hall y) as [Hy1 Hy2]; [apply elem_of_cons; by right|].
  split; [|done]. rewrite lookup_insert_ne; [done|].
  intros Heq. apply Hx. rewrite Heq.
  apply list_elem_of_fmap. exists (K y). split; [done|].
  apply list_elem_of_fmap. by exists y.
Qed.

Lemma aws_loop_preserves s (objs : gmap string string) (kv : list KV) n v :
  objs !! n = Some v -> (loop s objs kv).1 !! n = Some v.
Proof.
  revert objs. induction kv as [|x kv IH]; intros objs Hn; [done|].
  cbn [aws.AddIssuersIfNotExist_loop]. unfold aws.PutObject.
  destruct (objs !! name s (K x)) as [old|] eqn:Hx; [done|].
  destruct (s3_fault (name s (K x))) as [[code msg|msg]|].
  - by case_bool_decide.
  - done.
  - apply IH. rewrite lookup_insert_ne; [done|]. intros Heq. by rewrite Heq, Hn in Hx.
Qed.

(** X12: whatever the batch and however the call ends, the S3 store leaves
    every object that existed before with its content, and its bucket and
    prefix as they were. *)
Theorem aws_AddIssuersIfNotExist_never_overwrites (s : aws.IssuersStorage) kv n v :
  aws.s3Client s !! n = Some v ->
  aws.s3Client (AddIssuersIfNotExist_aws s kv).1 !! n = Some v /\
  aws.bucket (AddIssuersIfNotExist_aws s kv).1 = aws.bucket s /\
  aws.prefix (AddIssuersIfNotExist_aws s kv).1 = aws.prefix s.
Proof.
  intros Hn. unfold aws.AddIssuersIfNotExist.
  pose proof (aws_loop_preserves s (aws.s3Client s) kv n v Hn) as Hkeep.
  destruct (aws.AddIssuersIfNotExist_loop _ _ _ _ _ _) as [objs out]. done.
Qed.

(** X13: a batch whose object names are distinct and new to the bucket, and
    on which the service does not fail, is written whole: the call returns
    nil, every record is stored under its object name, and no other object
    changes. *)
Theorem aws_AddIssuersIfNotExist_writes_fresh_batch (s : aws.IssuersStorage) kv :
  NoDup (name s <$> (K <$> kv)) ->
  (forall x, x ∈ kv ->
     aws.s3Client s !! name s (K x) = None /\ s3_fault (name s (K x)) = None) ->
  (AddIssuersIfNotExist_aws s kv).2 = Returned None /\
  (forall x, x ∈ kv ->
     aws.s3Client (AddIssuersIfNotExist_aws s kv).1 !! name s (K x) = Some (V x)) /\
  (forall n, n ∉ name s <$> (K <$> kv) ->
     aws.s3Client (AddIssuersIfNotExist_aws s kv).1 !! n = aws.s3Client s !! n).
Proof.
  intros Hnd Hall. unfold aws.AddIssuersIfNotExist.
  pose proof (aws_loop_clean s (aws.s3Client s) kv Hnd Hall) as Hclean.
  destruct (aws.AddIssuersIfNotExist_loop _ _ _ _ _ _) as [objs out]. done.
Qed.

(** X14: when the service fails on a record, the call stops there without
    undoing anything: the records before it stay written and that record is
    not; an error that is no API error makes the call panic, an API error
    other than PreconditionFailed makes it return an error. *)
Theorem aws_AddIssuersIfNotExist_stops_at_failure (s : aws.IssuersStorage)
    (pre post : list KV) x e :
  NoDup (name s <$> (K <$> (pre ++ [x]))) ->
  (forall y, y ∈ pre ->
     aws.s3Client s !! name s (K y) = None /\ s3_fault (name s (K y)) = None) ->
  aws.s3Client s !! name s (K x) = None ->
  s3_fault (name s (K x)) = Some e ->
  let r := AddIssuersIfNotExist_aws s (pre ++ x :: post) in
  (forall y, y ∈ pre -> aws.s3Client r.1 !! name s (K y) = Some (V y)) /\
  aws.s3Client r.1 !! name s (K x) = None /\
  match e with
  | aws.TransportError _ => r.2 = Panicked
  | aws.APIError code _ =>
      code <> "PreconditionFailed" -> exists err, r.2 = Returned (Some err)
  end.
Proof.
  intros Hnd Hpre Hx Hfault r. subst r. unfold aws.AddIssuersIfNotExist.
  rewrite !fmap_app in Hnd. apply NoDup_app in Hnd as (Hndpre & Hdisj & _).
  rewrite (aws_loop_app_clean s (aws.s3Client s) pre (x :: post) Hndpre Hpre).
  destruct (aws_loop_clean s (aws.s3Client s) pre Hndpre Hpre) as (_ & Hin & Hother).
  assert ((loop s (aws.s3Client s) pre).1 !! name s (K x) = None) as Hx'.
  { rewrite Hother; [done|]. intros Hmem. apply (Hdisj _ Hmem).
    simpl. apply elem_of_cons. by left. }
  cbn [aws.AddIssuersIfNotExist_loop]. unfold aws.PutObject. rewrite Hx', Hfault.
  destruct e as [code msg|msg].
  - case_bool_decide as Hcode; simpl; (split; [done|]; split; [done|]);
      intros Hne; [done|by eexists].
  - simpl. done.
Qed.

End S3Store.

(** * Further properties of the caching wrapper and [AddIssuerChain] *)

Section WrapperOverAnyStore.
Import Storage.

Context {S : Type} {store : IssuerStorage S}.


Lemma filter_all {A} (P : A -> Prop) `{!forall x, Decision (P x)} (l : list A) :
  (forall x, x ∈ l -> P x) -> filter P l = l.
Proof.
  induction l as [|x l IH]; intros Hall; [done|].
  rewrite filter_cons_True by (apply Hall, elem_of_cons; by left).
  f_equal. apply IH. intros y Hy. apply Hall, elem_of_cons. by right.
Qed.



Lemma cachedStoreIssuers_cache_mono (c : IssuerCache S) (kv : list KV) :
  cache_m c ⊆ cache_m (cachedStoreIssuers c kv).1.
Proof.
  unfold cachedStoreIssuers.
  destruct (AddIssuersIfNotExist _ _) as [s' [[err|]|]]; simpl; try done.
  apply cachedStoreIssuers_fill_mono.
Qed.

(** X16: the wrapper never drops a key from its cache, whatever the batches
    and however the store answers. *)
Theorem cachedStoreIssuers_run_never_evicts (c : IssuerCache S) acked batches :
  cache_m c ⊆ cache_m (cachedStoreIssuers_run c acked batches).1.
Proof.
  revert c acked. induction batches as [|kv batches IH]; intros c acked; simpl; [done|].
  etrans; [apply (cachedStoreIssuers_cache_mono c kv)|apply IH].
Qed.

Variable Sum256 : string -> string.

Lemma HasPrefix_refl (s : string) : HasPrefix s s = true.
Proof. induction s as [|ch s IH]; simpl; [done|]. by rewrite bool_decide_eq_true_2, IH. Qed.

Lemma Contains_refl (s : string) : Contains s s = true.
Proof. apply Contains_HasPrefix, HasPrefix_refl. Qed.

(** X17: an error of the underlying store reaches the caller of
    AddIssuerChain: the call returns an error whose text contains the store's,
    and the cache is left as it was. *)
Theorem AddIssuerChain_surfaces_store_error (c : IssuerCache S) chain s' e :
  AddIssuersIfNotExist (store_s c) (forwarded c (issuer_record Sum256 <$> chain))
    = (s', Returned (Some e)) ->
  exists e',
    AddIssuerChain Sum256 cachedStoreIssuers c chain =
      ({| cache_m := cache_m c; store_s := s' |}, Returned (Some e')) /\
    Contains (Error e') (Error e) = true.
Proof.
  intros Hstore. unfold AddIssuerChain. rewrite AddIssuerChain_kvs_map. simpl.
  unfold cachedStoreIssuers. rewrite cachedStoreIssuers_req_forwarded, Hstore.
  eexists. split; [done|]. cbn [Error].
  apply Contains_app_r, Contains_app_r, Contains_refl.
Qed.

(** X18: two certificates get the same issuer key exactly when their DER
    bytes have the same SHA-256. *)
Theorem issuer_key_eq_iff_digest_eq (c1 c2 : Certificate_x509) :
  K (issuer_record Sum256 c1) = K (issuer_record Sum256 c2) <->
  Sum256 (Raw c1) = Sum256 (Raw c2).
Proof.
  simpl. split; [|by intros ->].
  intros Heq.
  pose proof (DecodeString_EncodeToString (Sum256 (Raw c1))) as H1.
  rewrite Heq, DecodeString_EncodeToString in H1. by injection H1.
Qed.

End WrapperOverAnyStore.

Section WrapperOverInMemoryStore.
Import Storage.

Lemma inmemory_filter_cached (m : gset string) (s : gmap string string) (kv : list KV) :
  (forall k, k ∈ m -> is_Some (s !! k)) ->
  inmemory.AddIssuersIfNotExist s (filter (fun x => K x ∉ m) kv)
  = inmemory.AddIssuersIfNotExist s kv.
Proof.
  revert s. induction kv as [|x kv IH]; intros s Hm; [done|].
  destruct (decide (K x ∈ m)) as [Hin|Hout].
  - rewrite filter_cons_False by (intros Hn; by apply Hn).
    cbn [inmemory.AddIssuersIfNotExist].
    destruct (Hm (K x) Hin) as [v ->]. by apply IH.
  - rewrite filter_cons_True by done. cbn [inmemory.AddIssuersIfNotExist].
    destruct (s !! K x) as [old|] eqn:Hx; [by apply IH|].
    apply IH. intros k Hk. destruct (decide (K x = k)) as [<-|Hne].
    + by rewrite lookup_insert_eq.
    + rewrite lookup_insert_ne by done. by apply Hm.
Qed.

Lemma cachedStoreIssuers_inmemory_store (c : IssuerCache (gmap string string)) kv :
  (forall k, k ∈ cache_m c -> is_Some (store_s c !! k)) ->
  store_s (cachedStoreIssuers c kv).1 = (inmemory.AddIssuersIfNotExist (store_s c) kv).1 /\
  (forall k, k ∈ cache_m (cachedStoreIssuers c kv).1 ->
     is_Some (store_s (cachedStoreIssuers c kv).1 !! k)).
Proof.
  intros Hinv.
  assert (store_s (cachedStoreIssuers c kv).1
          = (inmemory.AddIssuersIfNotExist (store_s c) kv).1) as Hstore.
  { rewrite cachedStoreIssuers_store.
    unfold AddIssuersIfNotExist, inmemory.IssuersStorage_IssuerStorage.
    by rewrite inmemory_filter_cached. }
  split; [done|]. intros k Hk. rewrite Hstore.
  destruct (inmemory_AddIssuersIfNotExist_spec (store_s c) kv) as (_ & Hkeep & Hnew).
  destruct (decide (k ∈ cache_m c)) as [Hin|Hout].
  - destruct (Hinv k Hin) as [v Hv]. rewrite (Hkeep k v Hv). by eexists.
  - destruct (cachedStoreIssuers_cached_after_success c kv k Hk Hout) as [Hreq _].
    apply list_elem_of_fmap in Hreq as (x & -> & Hx).
    apply Hnew. by apply list_elem_of_filter in Hx as [_ Hx].
Qed.

Lemma cachedStoreIssuers_run_inmemory (c : IssuerCache (gmap string string)) acked batches :
  (forall k, k ∈ cache_m c -> is_Some (store_s c !! k)) ->
  store_s (cachedStoreIssuers_run c acked batches).1 =
    foldl (fun s kv => (inmemory.AddIssuersIfNotExist s kv).1) (store_s c) batches.
Proof.
  revert c acked. induction batches as [|kv batches IH]; intros c acked Hinv; simpl; [done|].
  destruct (cachedStoreIssuers_inmemory_store c kv Hinv) as [Hstore Hinv'].
  rewrite IH by done. by rewrite Hstore.
Qed.

(** X19: over the in-memory store the cache changes nothing that can be
    observed in the store: after any batches through the wrapper, started
    with an empty cache, the store is what the same batches handed to it
    directly would have made it. *)
Theorem cachedStoreIssuers_transparent_over_inmemory (s : gmap string string)
    (batches : list (list KV)) :
  store_s (cachedStoreIssuers_run {| cache_m := ∅; store_s := s |} ∅ batches).1 =
    foldl (fun s kv => (inmemory.AddIssuersIfNotExist s kv).1) s batches.
Proof.
  apply (cachedStoreIssuers_run_inmemory {| cache_m := ∅; store_s := s |}).
  intros k Hk. by apply not_elem_of_empty in Hk.
Qed.

Variable Sum256 : string -> string.

(** X20: on a wrapper with an empty cache over the in-memory store,
    AddIssuerChain returns nil and leaves every certificate of the chain
    retrievable under the hex SHA-256 of its DER, unless the key was taken
    before, in which case the old value stays; this for a chain without two
    different certificates of equal digest. *)
Theorem AddIssuerChain_stores_certificates (s : gmap string string)
    (chain : list Certificate_x509) :
  (forall c1 c2, c1 ∈ chain -> c2 ∈ chain ->
     Sum256 (Raw c1) = Sum256 (Raw c2) -> Raw c1 = Raw c2) ->
  let r := AddIssuerChain Sum256 cachedStoreIssuers
             {| cache_m := ∅; store_s := s |} chain in
  r.2 = Returned None /\
  forall c, c ∈ chain ->
    store_s r.1 !! EncodeToString (Sum256 (Raw c)) =
      match s !! EncodeToString (Sum256 (Raw c)) with
      | Some old => Some old
      | None => Some (Raw c)
      end.
Proof.
  intros Hinj r. subst r. unfold AddIssuerChain. rewrite AddIssuerChain_kvs_map. simpl.
  set (kvs := issuer_record Sum256 <$> chain).
  unfold cachedStoreIssuers. rewrite cachedStoreIssuers_req_forwarded.
  assert (forwarded {| cache_m := ∅; store_s := s |} kvs = kvs) as ->.
  { unfold forwarded. simpl. apply filter_all. intros x _.
    apply not_elem_of_empty. }
  simpl. unfold AddIssuersIfNotExist, inmemory.IssuersStorage_IssuerStorage.
  destruct (inmemory_AddIssuersIfNotExist_spec s kvs) as (Hout & _ & _).
  destruct (inmemory.AddIssuersIfNotExist s kvs) as [s' out] eqn:Hadd.
  simpl in Hout. subst out. simpl. split; [done|].
  intros c Hc.
  pose proof (inmemory_AddIssuersIfNotExist_lookup s kvs
                (EncodeToString (Sum256 (Raw c)))) as Hlook.
  rewrite Hadd in Hlook. simpl in Hlook. rewrite Hlook.
  destruct (s !! EncodeToString (Sum256 (Raw c))); [done|].
  destruct (filter _ kvs) as [|kv' l] eqn:Hf.
  - exfalso.
    assert (issuer_record Sum256 c ∈ filter
              (fun x => K x = EncodeToString (Sum256 (Raw c))) kvs) as Hin.
    { apply list_elem_of_filter. split; [done|].
      apply list_elem_of_fmap. by exists c. }
    rewrite Hf in Hin. by apply elem_of_nil in Hin.
  - simpl. f_equal.
    assert (kv' ∈ filter (fun x => K x = EncodeToString (Sum256 (Raw c))) kvs) as Hin
      by (rewrite Hf; apply elem_of_cons; by left).
    apply list_elem_of_filter in Hin as [Hkey Hmem].
    apply list_elem_of_fmap in Hmem as (c' & -> & Hc').
    simpl in *. apply Hinj; [done|done|].
    pose proof (DecodeString_EncodeToString (Sum256 (Raw c'))) as Hdec.
    rewrite Hkey, DecodeString_EncodeToString in Hdec. by injection Hdec.
Qed.

End WrapperOverInMemoryStore.

(** * Properties of the load test's leaf reader *)

Section LeafReading.
Import Loadtest.

Lemma to_uint64_small z : 0 <= z < 2 ^ 64 -> to_uint64 z = z.
Proof. intros Hz. unfold to_uint64. by apply Z.mod_small. Qed.

Lemma MonotonicallyIncreasingNextLeaf_calls_from (i : Z) (sizes : list Z) :
  0 <= i ->
  Forall (fun size => 0 <= size < 2 ^ 64) sizes ->
  let r := MonotonicallyIncreasingNextLeaf_calls i sizes in
  i <= r.2 /\
  leaves_read r.1 = seqZ i (r.2 - i) /\
  Forall (fun p => p.2 <= p.1) r.1.
Proof.
  intros Hi Hsizes. revert i Hi.
  induction Hsizes as [|size sizes Hsize _ IH]; intros i Hi.
  - simpl. split; [lia|]. split; [|done]. by rewrite seqZ_nil by lia.
  - cbn [MonotonicallyIncreasingNextLeaf_calls]. unfold MonotonicallyIncreasingNextLeaf.
    destruct (Z.ltb_spec i size) as [Hlt|Hge]; cbn [fst snd].
    + rewrite to_uint64_small by lia.
      destruct (IH (i + 1)) as (Hle & Hread & Hall); [lia|].
      split; [lia|]. split; [|by constructor; [simpl; lia|]].
      unfold leaves_read in *. rewrite filter_cons_True by (simpl; lia).
      rewrite fmap_cons. cbn [snd]. rewrite Hread.
      rewrite (seqZ_cons i) by lia. f_equal. f_equal; lia.
    + destruct (IH i Hi) as (Hle & Hread & Hall).
      split; [done|]. split; [|by constructor; [simpl; lia|]].
      unfold leaves_read in *. by rewrite filter_cons_False by (simpl; lia).
Qed.

(** X21: whatever sizes the tree is seen at, the leaves the
    monotonically increasing strategy leads to read are 0, 1, 2, ... without
    gap or repetition, as many as the closure has counted; and no call
    returns more than the size it was given. *)
Theorem MonotonicallyIncreasingNextLeaf_reads_in_order (sizes : list Z) :
  Forall (fun size => 0 <= size < 2 ^ 64) sizes ->
  let r := MonotonicallyIncreasingNextLeaf_calls 0 sizes in
  leaves_read r.1 = seqZ 0 r.2 /\
  Forall (fun p => p.2 <= p.1) r.1.
Proof.
  intros Hsizes r.
  destruct (MonotonicallyIncreasingNextLeaf_calls_from 0 sizes) as (_ & Hread & Hall);
    [done|done|].
  split; [|done]. subst r. rewrite Hread. f_equal. lia.
Qed.

Variable DecodeString : string -> string * option error.
Variable GetEntryBundle : Z -> Z -> Result (list string).

Local Abbreviation get := (Loadtest.get DecodeString).
Local Abbreviation getLeaf := (Loadtest.getLeaf DecodeString GetEntryBundle).

#[local] Arguments Z.div : simpl never.
#[local] Arguments Z.modulo : simpl never.

(** X22: a read that misses the cache fetches the bundle of the leaf, once,
    and returns the leaf's entry as fetched; after it, every leaf of that
    bundle below the log size is answered from the cache, with its entry
    base64-decoded, without the state changing and so without another
    fetch. *)
Theorem getLeaf_serves_bundle_from_cache (r : LeafReader) i logSize entries entry :
  0 <= i < logSize ->
  (start (c r) <=? i)
    && (i <? to_uint64 (start (c r) + Z.of_nat (length (leaves (c r))))) = false ->
  GetEntryBundle (i / 256) logSize = Ok entries ->
  entries !! Z.to_nat (i mod 256) = Some entry ->
  i - i mod 256 + Z.of_nat (length entries) < 2 ^ 64 ->
  let r' := (getLeaf r i logSize).1 in
  (getLeaf r i logSize).2 = Done (Ok entry) /\
  fetches r' = fetches r ++ [(i / 256, logSize)] /\
  forall j leaf,
    i - i mod 256 <= j -> j < logSize ->
    entries !! Z.to_nat (j - (i - i mod 256)) = Some leaf ->
    getLeaf r' j logSize = (r', Done (Ok (DecodeString leaf).1)).
Proof.
  intros Hi Hmiss Hbundle Hentry Hrange r'.
  assert (0 <= i mod 256 < 256) as Hmod by (apply Z.mod_pos_bound; lia).
  assert (i mod 256 <= i) as Hle by (apply Z.mod_le; lia).
  assert (getLeaf r i logSize =
            ({| c := {| start := i - i mod 256; leaves := entries |};
                fetches := fetches r ++ [(i / 256, logSize)] |}, Done (Ok entry))) as Hfirst.
  { unfold Loadtest.getLeaf, Loadtest.get, Storage.EntryBundleWidth.
    destruct (Z.geb_spec i logSize); [lia|].
    rewrite Hmiss, Hbundle, Hentry. simpl. by rewrite to_uint64_small by lia. }
  subst r'. rewrite Hfirst. cbn [fst snd]. split; [done|]. split; [done|].
  intros j leaf Hj Hsize Hleaf.
  assert (Z.to_nat (j - (i - i mod 256)) < length entries)%nat as Hlen
    by (by eapply lookup_lt_Some).
  unfold Loadtest.getLeaf, Loadtest.get. cbn [c start leaves].
  destruct (Z.geb_spec j logSize); [lia|].
  rewrite (to_uint64_small (i - i mod 256 + _)) by lia.
  destruct (Z.leb_spec (i - i mod 256) j); [|lia].
  destruct (Z.ltb_spec j (i - i mod 256 + Z.of_nat (length entries))); [|lia].
  cbn [andb]. rewrite to_uint64_small by lia. by rewrite Hleaf.
Qed.

End LeafReading.

Ltac by_computation := apply (bool_decide_unpack _); vm_compute; exact I.

(** X12, run: the object of key "a" keeps its content. *)
Lemma aws_AddIssuersIfNotExist_never_overwrites_witness :
  Storage.aws.s3Client
    (Storage.aws.AddIssuersIfNotExist Examples.join_slash Examples.quote_plain
       Examples.no_fault Examples.bucket_with_a Examples.records_a_b).1
    !! "issuers/a" = Some "old".
Proof.
  apply (aws_AddIssuersIfNotExist_never_overwrites Examples.join_slash
           Examples.quote_plain Examples.no_fault Examples.bucket_with_a
           Examples.records_a_b "issuers/a" "old").
  reflexivity.
Defined.

(** X13, run: two new records on an empty bucket. *)
Lemma aws_AddIssuersIfNotExist_writes_fresh_batch_witness :
  (Storage.aws.AddIssuersIfNotExist Examples.join_slash Examples.quote_plain
     Examples.no_fault Examples.bucket_empty Examples.records_a_b).2
  = Storage.Returned None.
Proof.
  apply (aws_AddIssuersIfNotExist_writes_fresh_batch Examples.join_slash
           Examples.quote_plain Examples.no_fault Examples.bucket_empty
           Examples.records_a_b).
  - by_computation.
  - intros x Hx. unfold Examples.records_a_b in Hx.
    explicit_elem Hx; split; reflexivity.
Defined.

(** X14, run: the service times out on "b" after "a" was written. *)
Lemma aws_AddIssuersIfNotExist_stops_at_failure_witness :
  let r := Storage.aws.AddIssuersIfNotExist Examples.join_slash Examples.quote_plain
             Examples.fault_on_b Examples.bucket_empty Examples.records_a_b in
  Storage.aws.s3Client r.1 !! "issuers/a" = Some "cert-a" /\
  r.2 = Storage.Panicked.
Proof.
  intros r.
  destruct (aws_AddIssuersIfNotExist_stops_at_failure Examples.join_slash
              Examples.quote_plain Examples.fault_on_b Examples.bucket_empty
              [ {| Storage.K := "a"; Storage.V := "cert-a" |} ] []
              {| Storage.K := "b"; Storage.V := "cert-b" |}
              (Storage.aws.TransportError "timeout"))
    as (Hpre & _ & Hout).
  - by_computation.
  - intros y Hy. explicit_elem Hy. split; reflexivity.
  - reflexivity.
  - reflexivity.
  - split; [|exact Hout].
    apply (Hpre {| Storage.K := "a"; Storage.V := "cert-a" |}).
    apply elem_of_cons. by left.
Defined.


(** X17, run: a store that is out of space. *)
Lemma AddIssuerChain_surfaces_store_error_witness :
  exists e',
    (Storage.AddIssuerChain Examples.sum_id
       (Storage.cachedStoreIssuers (store := Examples.failing_store))
       {| Storage.cache_m := ∅; Storage.store_s := tt |} Examples.chain_two).2
      = Storage.Returned (Some e') /\
    Contains (Error e') "disk full" = true.
Proof.
  destruct (@AddIssuerChain_surfaces_store_error unit Examples.failing_store
              Examples.sum_id {| Storage.cache_m := ∅; Storage.store_s := tt |}
              Examples.chain_two tt (errors_New "disk full") eq_refl)
    as (e' & Hres & Hsub).
  exists e'. split; [by rewrite Hres|exact Hsub].
Defined.

(** X20, run: a chain of two certificates on an empty store. *)
Lemma AddIssuerChain_stores_certificates_witness :
  Storage.store_s
    (Storage.AddIssuerChain Examples.sum_id Storage.cachedStoreIssuers
       {| Storage.cache_m := ∅; Storage.store_s := (∅ : gmap string string) |}
       Examples.chain_two).1 !! "415a" = Some "AZ".
Proof.
  destruct (AddIssuerChain_stores_certificates Examples.sum_id ∅ Examples.chain_two)
    as [_ Hstored].
  - intros c1 c2 _ _ Heq. exact Heq.
  - apply (Hstored {| Storage.Raw := "AZ" |}). apply elem_of_cons. by left.
Defined.

(** X21, run: sizes 3, 3, 1, 5 lead to reading leaves 0, 1 and 2. *)
Lemma MonotonicallyIncreasingNextLeaf_reads_in_order_witness :
  Loadtest.leaves_read
    (Loadtest.MonotonicallyIncreasingNextLeaf_calls 0 [3; 3; 1; 5]).1 = [0; 1; 2].
Proof.
  destruct (MonotonicallyIncreasingNextLeaf_reads_in_order [3; 3; 1; 5]) as [Hread _].
  - by_computation.
  - rewrite Hread. reflexivity.
Defined.

(** X22, run: leaf 300 is fetched with bundle 1, then leaf 299 comes from
    the cache. *)
Lemma getLeaf_serves_bundle_from_cache_witness :
  let first := Loadtest.getLeaf Examples.decode_id Examples.bundle_45
                 Examples.reader_fresh 300 301 in
  first.2 = Loadtest.Done (Ok "entry") /\
  Loadtest.getLeaf Examples.decode_id Examples.bundle_45 first.1 299 301
    = (first.1, Loadtest.Done (Ok "entry")).
Proof.
  intros first.
  destruct (getLeaf_serves_bundle_from_cache Examples.decode_id Examples.bundle_45
              Examples.reader_fresh 300 301 (replicate 45 "entry") "entry")
    as (Hfirst & _ & Hnext).
  - split; [intros Hgt; discriminate Hgt|reflexivity].
  - reflexivity.
  - reflexivity.
  - reflexivity.
  - reflexivity.
  - split; [exact Hfirst|].
    apply (Hnext 299 "entry"); [intros Hgt; discriminate Hgt|reflexivity|reflexivity].
Defined.

Section ResetJob.
Import Storage.

Variable publishedCheckpoint : Z -> Result string.
Variable ReadEntryBundle : Z -> Z -> Result string.
Variable PartialTileSize : Z -> Z -> Z -> Z.
Variable ParseUint : string -> Result Z.
Variable ExtractTimestampFromBundle : string -> Z -> Result Z.

Local Abbreviation dedupeFuture_each :=
  (Storage.dedupeFuture_each publishedCheckpoint ReadEntryBundle PartialTileSize
     ParseUint ExtractTimestampFromBundle).


End ResetJob.


(** * Overlapping calls of the caching wrapper *)

Section Interleaving.
Import Storage.

Context {S : Type} {store : IssuerStorage S}.

Lemma wrapper_interleave_step i schedule running (c : IssuerCache S) pc pc' c' :
  running !! i = Some pc -> wrapper_step pc c = (pc', c') ->
  wrapper_interleave (i :: schedule) running c =
    wrapper_interleave schedule (<[i := pc']> running) c'.
Proof. intros Hi Hstep. cbn [wrapper_interleave]. by rewrite Hi, Hstep. Qed.

Lemma wrapper_interleave_app schedule1 schedule2 running (c : IssuerCache S) :
  wrapper_interleave (schedule1 ++ schedule2) running c =
    wrapper_interleave schedule2 (wrapper_interleave schedule1 running c).1
      (wrapper_interleave schedule1 running c).2.
Proof.
  revert running c. induction schedule1 as [|i schedule1 IH]; intros running c; [done|].
  cbn [app wrapper_interleave]. destruct (running !! i); apply IH.
Qed.

Lemma wrapper_step_Looking_miss x kv req (c : IssuerCache S) :
  K x ∉ cache_m c ->
  wrapper_step (Looking (x :: kv) req) c = (Looking kv (req ++ [x]), c).
Proof. intros Hx. cbn [wrapper_step]. by rewrite bool_decide_eq_false_2. Qed.

Lemma wrapper_step_Checking_room x req (c : IssuerCache S) :
  Z.of_nat (size (cache_m c)) < maxCachedIssuerKeys ->
  wrapper_step (Checking (x :: req)) c = (Inserting x req, c).
Proof.
  intros Hroom. cbn [wrapper_step]. rewrite Z.geb_leb.
  by destruct (Z.leb_spec maxCachedIssuerKeys (Z.of_nat (size (cache_m c)))); [lia|].
Qed.

(** A call alone goes through its first loop in as many steps as the batch
    has records. *)
Lemma wrapper_alone_Looking kv req (c : IssuerCache S) :
  wrapper_interleave (replicate (length kv) 0%nat) [Looking kv req] c =
    ([Looking [] (cachedStoreIssuers_req (cache_m c) kv req)], c).
Proof.
  revert req. induction kv as [|x kv IH]; intros req; [done|].
  cbn [length replicate wrapper_interleave lookup list_lookup wrapper_step
       cachedStoreIssuers_req].
  case_bool_decide; cbn [fst snd insert list_insert]; apply IH.
Qed.

(** A call alone goes through its second loop in at most two steps a
    record, and one more. *)
Lemma wrapper_alone_Checking req (c : IssuerCache S) :
  exists k,
    wrapper_interleave (replicate k 0%nat) [Checking req] c =
      ([Finished (Returned None)],
       {| cache_m := cachedStoreIssuers_fill (cache_m c) req; store_s := store_s c |}).
Proof.
  revert c. induction req as [|x req IH]; intros c.
  - exists 1%nat. by destruct c.
  - cbn [cachedStoreIssuers_fill].
    destruct (Z.of_nat (size (cache_m c)) >=? maxCachedIssuerKeys) eqn:Hfull.
    + exists 1%nat. cbn [replicate wrapper_interleave lookup list_lookup wrapper_step].
      rewrite Hfull. by destruct c.
    + destruct (IH {| cache_m := {[ K x ]} ∪ cache_m c; store_s := store_s c |})
        as [k Hk].
      exists (Datatypes.S (Datatypes.S k)).
      cbn [replicate wrapper_interleave lookup list_lookup wrapper_step].
      rewrite Hfull. cbn [fst snd insert list_insert lookup list_lookup wrapper_step].
      exact Hk.
Qed.

(** A call that no other call overlaps ends as [cachedStoreIssuers] says. *)
Lemma wrapper_alone (c : IssuerCache S) (kv : list KV) :
  exists k,
    wrapper_interleave (replicate k 0%nat) [Looking kv []] c =
      ([Finished (cachedStoreIssuers c kv).2], (cachedStoreIssuers c kv).1).
Proof.
  unfold cachedStoreIssuers.
  set (req := cachedStoreIssuers_req (cache_m c) kv []).
  destruct (AddIssuersIfNotExist (store_s c) req) as [s' out] eqn:Hstore.
  destruct out as [[err|]|].
  - exists (length kv + 2)%nat. rewrite replicate_add, wrapper_interleave_app.
    rewrite wrapper_alone_Looking. fold req.
    cbn [fst snd replicate wrapper_interleave lookup list_lookup wrapper_step
         insert list_insert].
    by rewrite Hstore.
  - destruct (wrapper_alone_Checking req {| cache_m := cache_m c; store_s := s' |})
      as [k Hk].
    exists (length kv + (2 + k))%nat. rewrite replicate_add, wrapper_interleave_app.
    rewrite wrapper_alone_Looking. fold req.
    cbn [fst snd replicate Nat.add wrapper_interleave lookup list_lookup wrapper_step
         insert list_insert].
    rewrite Hstore. cbn [fst snd insert list_insert]. exact Hk.
  - exists (length kv + 2)%nat. rewrite replicate_add, wrapper_interleave_app.
    rewrite wrapper_alone_Looking. fold req.
    cbn [fst snd replicate wrapper_interleave lookup list_lookup wrapper_step
         insert list_insert].
    by rewrite Hstore.
Qed.

End Interleaving.

Section InterleavingOverInMemoryStore.
Import Storage.

Lemma wrapper_step_Calling_inmemory req (c : IssuerCache (gmap string string)) :
  wrapper_step (Calling req) c =
    (Checking req,
     {| cache_m := cache_m c;
        store_s := (inmemory.AddIssuersIfNotExist (store_s c) req).1 |}).
Proof.
  cbn [wrapper_step]. unfold AddIssuersIfNotExist, inmemory.IssuersStorage_IssuerStorage.
  destruct (inmemory_AddIssuersIfNotExist_spec (store_s c) req) as (Hout & _ & _).
  destruct (inmemory.AddIssuersIfNotExist (store_s c) req) as [s' out].
  simpl in Hout. by subst out.
Qed.

(** Two calls, each with one record new to the cache, both pass the test of
    [len(m)] before either inserts: both keys end up cached. *)
Lemma wrapper_interleave_both_insert (c : IssuerCache (gmap string string)) x1 x2 :
  K x1 ∉ cache_m c -> K x2 ∉ cache_m c ->
  Z.of_nat (size (cache_m c)) < maxCachedIssuerKeys ->
  let r := wrapper_interleave [0; 0; 0; 0; 1; 1; 1; 1; 0; 0; 1; 1]%nat
             [Looking [x1] []; Looking [x2] []] c in
  r.1 = [Finished (Returned None); Finished (Returned None)] /\
  cache_m r.2 = ({[ K x2 ]} ∪ ({[ K x1 ]} ∪ cache_m c)).
Proof.
  intros H1 H2 Hroom r. subst r.
  erewrite wrapper_interleave_step;
    [|reflexivity|by apply wrapper_step_Looking_miss]. cbn [insert list_insert app].
  erewrite wrapper_interleave_step; [|reflexivity|reflexivity]. cbn [insert list_insert].
  erewrite wrapper_interleave_step;
    [|reflexivity|apply wrapper_step_Calling_inmemory]. cbn [insert list_insert].
  erewrite wrapper_interleave_step;
    [|reflexivity|by apply wrapper_step_Checking_room]. cbn [insert list_insert].
  erewrite wrapper_interleave_step;
    [|reflexivity|by apply wrapper_step_Looking_miss]. cbn [insert list_insert app].
  erewrite wrapper_interleave_step; [|reflexivity|reflexivity]. cbn [insert list_insert].
  erewrite wrapper_interleave_step;
    [|reflexivity|apply wrapper_step_Calling_inmemory]. cbn [insert list_insert].
  erewrite wrapper_interleave_step;
    [|reflexivity|by apply wrapper_step_Checking_room]. cbn [insert list_insert].
  erewrite wrapper_interleave_step; [|reflexivity|reflexivity]. cbn [insert list_insert].
  erewrite wrapper_interleave_step; [|reflexivity|reflexivity]. cbn [insert list_insert].
  erewrite wrapper_interleave_step; [|reflexivity|reflexivity]. cbn [insert list_insert].
  erewrite wrapper_interleave_step; [|reflexivity|reflexivity]. cbn [insert list_insert].
  done.
Qed.

Lemma cachedStoreIssuers_one_new_issuer (c : IssuerCache (gmap string string)) x :
  K x ∉ cache_m c -> Z.of_nat (size (cache_m c)) < maxCachedIssuerKeys ->
  cache_m (cachedStoreIssuers c [x]).1 = ({[ K x ]} ∪ cache_m c).
Proof.
  intros Hx Hsize. unfold cachedStoreIssuers. cbn [cachedStoreIssuers_req].
  rewrite bool_decide_eq_false_2 by done. cbn [app].
  unfold AddIssuersIfNotExist, inmemory.IssuersStorage_IssuerStorage.
  cbn [inmemory.AddIssuersIfNotExist].
  assert ((Z.of_nat (size (cache_m c)) >=? maxCachedIssuerKeys) = false) as Hroom
    by (rewrite Z.geb_leb; by apply Z.leb_gt).
  destruct (store_s c !! K x); cbn [fst snd cache_m cachedStoreIssuers_fill];
    by rewrite Hroom.
Qed.

(** Calls storing one new issuer each, one after the other, cache them all
    while there is room. *)
Lemma cachedStoreIssuers_run_issuer_batches (a n : nat)
    (c : IssuerCache (gmap string string)) acked :
  (forall i, (a <= i < a + n)%nat -> pretty i ∉ cache_m c) ->
  Z.of_nat (size (cache_m c)) + Z.of_nat n <= maxCachedIssuerKeys ->
  cache_m (cachedStoreIssuers_run c acked (issuer_batches a n)).1 =
    (list_to_set (pretty <$> seq a n) ∪ cache_m c).
Proof.
  revert a c acked. induction n as [|n IH]; intros a c acked Hfresh Hroom.
  - simpl. by rewrite (left_id_L ∅ (∪)).
  - unfold issuer_batches. cbn [seq fmap list_fmap cachedStoreIssuers_run].
    fold (issuer_batches (Datatypes.S a) n).
    assert (cache_m (cachedStoreIssuers c [issuer_of a]).1 = ({[ pretty a ]} ∪ cache_m c))
      as Hstep.
    { apply (cachedStoreIssuers_one_new_issuer c (issuer_of a)); [|lia].
      apply Hfresh. lia. }
    rewrite IH.
    + rewrite Hstep. cbn [list_to_set foldr].
      change (list_fmap nat string pretty (seq (Datatypes.S a) n))
        with (pretty <$> seq (Datatypes.S a) n).
      rewrite (comm_L (∪) {[pretty a]} (list_to_set _)).
      by rewrite (assoc_L (∪)).
    + intros i Hi. rewrite Hstep. intros Hin.
      apply elem_of_union in Hin as [Hin|Hin].
      * apply elem_of_singleton in Hin. apply (inj pretty) in Hin. lia.
      * revert Hin. apply Hfresh. lia.
    + rewrite Hstep. pose proof (size_add_key (pretty a) (cache_m c)). lia.
Qed.

Lemma issuer_key_fresh (n i : nat) :
  (n <= i)%nat -> pretty i ∉ (list_to_set (pretty <$> seq 0 n) ∪ ∅ : gset string).
Proof.
  intros Hi Hin. apply elem_of_union in Hin as [Hin|Hin]; [|by apply not_elem_of_empty in Hin].
  apply elem_of_list_to_set, list_elem_of_fmap in Hin as (j & Heq & Hj).
  apply (inj pretty) in Heq. subst j. apply elem_of_seq in Hj. lia.
Qed.

Lemma issuer_keys_size (n : nat) :
  size (list_to_set (pretty <$> seq 0 n) ∪ ∅ : gset string) = n.
Proof.
  rewrite (right_id_L ∅ (∪)), size_list_to_set.
  - by rewrite length_fmap, length_seq.
  - apply (NoDup_fmap_2 pretty), NoDup_seq.
Qed.

(** The overlap at a cache of any size one short of the bound. *)
Lemma wrapper_interleave_past_bound (n : nat) :
  Z.of_nat n = maxCachedIssuerKeys - 1 ->
  let c := (cachedStoreIssuers_run
              {| cache_m := ∅; store_s := (∅ : gmap string string) |} ∅
              (issuer_batches 0 n)).1 in
  let r := wrapper_interleave [0; 0; 0; 0; 1; 1; 1; 1; 0; 0; 1; 1]%nat
             [Looking [issuer_of n] []; Looking [issuer_of (Datatypes.S n)] []] c in
  Z.of_nat (size (cache_m c)) = 2 ^ 20 - 1 /\
  r.1 = [Finished (Returned None); Finished (Returned None)] /\
  Z.of_nat (size (cache_m r.2)) = 2 ^ 20 + 1.
Proof.
  intros Hn c r. rewrite <- maxCachedIssuerKeys_value.
  assert (cache_m c = (list_to_set (pretty <$> seq 0 n) ∪ ∅)) as Hcache.
  { subst c. apply cachedStoreIssuers_run_issuer_batches.
    - intros i _. cbn [cache_m]. apply not_elem_of_empty.
    - cbn [cache_m]. rewrite size_empty. lia. }
  assert (size (cache_m c) = n) as Hsize by (rewrite Hcache; apply issuer_keys_size).
  destruct (wrapper_interleave_both_insert c (issuer_of n) (issuer_of (Datatypes.S n)))
    as [Hdone Hboth].
  { rewrite Hcache. apply issuer_key_fresh. lia. }
  { rewrite Hcache. apply issuer_key_fresh. lia. }
  { lia. }
  split; [lia|]. split; [exact Hdone|].
  fold r in Hboth. rewrite Hboth. cbn [issuer_of K].
  rewrite size_union, size_singleton, size_union, size_singleton.
  - lia.
  - apply disjoint_singleton_l. rewrite Hcache. apply issuer_key_fresh. lia.
  - apply disjoint_singleton_l. intros Hin. apply elem_of_union in Hin as [Hin|Hin].
    + apply elem_of_singleton in Hin. apply (inj pretty) in Hin. lia.
    + revert Hin. rewrite Hcache. apply issuer_key_fresh. lia.
Qed.

End InterleavingOverInMemoryStore.

(** C8: the bound of 2^20 cached keys fails when two calls overlap. After
    2^20 - 1 calls that stored one issuer each, the cache holds 2^20 - 1 keys;
    two calls with one new issuer each then both test len(m) before either
    inserts, both return nil, and the cache holds 2^20 + 1 keys. *)
Theorem cachedStoreIssuers_overlapping_calls_exceed_bound :
  let c := (Storage.cachedStoreIssuers_run
              {| Storage.cache_m := ∅; Storage.store_s := (∅ : gmap string string) |} ∅
              (Storage.issuer_batches 0 Examples.almost_full)).1 in
  let r := Storage.wrapper_interleave [0; 0; 0; 0; 1; 1; 1; 1; 0; 0; 1; 1]%nat
             [Storage.Looking [Storage.issuer_of Examples.almost_full] [];
              Storage.Looking [Storage.issuer_of (Datatypes.S Examples.almost_full)] []] c in
  Z.of_nat (size (Storage.cache_m c)) = 2 ^ 20 - 1 /\
  r.1 = [Storage.Finished (Storage.Returned None);
         Storage.Finished (Storage.Returned None)] /\
  Z.of_nat (size (Storage.cache_m r.2)) = 2 ^ 20 + 1.
Proof.
  apply (wrapper_interleave_past_bound Examples.almost_full).
  unfold Examples.almost_full. apply Z2Nat.id.
  rewrite maxCachedIssuerKeys_value. lia.
Qed.

(** C10: over the S3 store a cache hit occurs for a key that was never
    written. The bucket holds key "a"; the batch [a; b] returns nil and caches
    "b" although the store never wrote it, so the next call for "b" is a cache
    hit that forwards nothing, returns nil and leaves the object missing. *)
Theorem cachedStoreIssuers_cache_hit_for_unwritten_key :
  let store : Storage.IssuerStorage Storage.aws.IssuersStorage :=
    Storage.aws.AddIssuersIfNotExist Examples.join_slash Examples.quote_plain
      Examples.no_fault in
  let first := Storage.cachedStoreIssuers
                 {| Storage.cache_m := ∅; Storage.store_s := Examples.bucket_with_a |}
                 Examples.records_a_b in
  let second := Storage.cachedStoreIssuers first.1 [Examples.record_b] in
  first.2 = Storage.Returned None /\
  bool_decide ("b" ∈ Storage.cache_m first.1) = true /\
  Storage.forwarded first.1 [Examples.record_b] = [] /\
  second.2 = Storage.Returned None /\
  Storage.aws.s3Client (Storage.store_s second.1) !! "issuers/b" = None.
Proof. vm_compute. done. Qed.
